(** * Trade-history analysis: position matcher and aggregator

    A shallow embedding of [get_adjusted_date], [process_trades] and
    [analyze_summary] of [app.py], of the cell functions of
    [style_and_format_summary] ([format_timedelta] and the three colour
    functions) and of the frames the application builds from them (swap
    sums, FX and CFD frames, total tables, daily charts, FX monthly table),
    and the properties proved about them. The numeric formats of
    [format_dict], the mean holding times and the rendering calls are not
    modelled.

    Modelling conventions.
    - A pandas [Timestamp] is its integer value, nanoseconds since the epoch
      (timezone-naive), as an unbounded [Z]; a [Timedelta] is a number of
      nanoseconds. The bounds of the 64-bit representation are not modelled;
      within them a year has four digits, which is how [%Y] is printed here.
    - Numeric columns (after [pd.to_numeric(...).fillna(0)]) are exact
      rationals [Q]: rounding of binary floating point is not modelled, and
      the columns are finite. Equality of quantities is [Qeq] ([==]).
      Where the aggregator divides by zero the IEEE special values are kept
      explicitly (type [xnum]).
    - A DataFrame is the list of its rows, in row order; the text columns of a
      row are present (not missing). The frames read here are already parsed:
      [pd.to_datetime] and [pd.to_numeric] have been applied.
    - [sort_values] uses the default sorting algorithm of pandas, which
      gives no promise on the order of rows of equal timestamp; the model
      keeps them in their input order. The general statements below are
      about one closing execution from any state of [new_trades], or about
      any sequence of closing executions, and the sample histories have
      distinct timestamps.
    - [groupby] and an outer [pd.merge] return their keys in ascending
      order, each key once; a key missing on one side of the merge gives a
      missing value, which [fillna(0)] turns into 0. *)

From Stdlib Require Import QArith Qabs Lqa Ascii String.
From Stdlib Require OrderedTypeEx.
From stdpp Require Import base list strings sorting pretty.

Local Open Scope string_scope.
Local Open Scope list_scope.
Local Open Scope Z_scope.

(** ** Timestamps and the calendar *)

Definition Timestamp := Z.
Definition Timedelta := Z.

Definition ns_per_hour : Z := 3600000000000.
Definition ns_per_day : Z := 86400000000000.

(** [pd.Timedelta(days=n)] *)
Definition Timedelta_days (n : Z) : Timedelta := n * ns_per_day.

(** [dt.hour] *)
Definition hour (dt : Timestamp) : Z := (dt `div` ns_per_hour) `mod` 24.

(** The calendar date of a timestamp, as a day number (days since
    1970-01-01). *)
Definition date_of (dt : Timestamp) : Z := dt `div` ns_per_day.

(** Year, month and day of a day number in the proleptic Gregorian
    calendar. *)
Definition civil_from_days (z : Z) : Z * Z * Z :=
  let z := z + 719468 in
  let era := z `div` 146097 in
  let doe := z - era * 146097 in
  let yoe := (doe - doe `div` 1460 + doe `div` 36524 - doe `div` 146096) `div` 365 in
  let y := yoe + era * 400 in
  let doy := doe - (365 * yoe + yoe `div` 4 - yoe `div` 100) in
  let mp := (5 * doy + 2) `div` 153 in
  let d := doy - (153 * mp + 2) `div` 5 + 1 in
  let m := if mp <? 10 then mp + 3 else mp - 9 in
  (if m <=? 2 then y + 1 else y, m, d).

Definition digit_char (n : Z) : Ascii.ascii :=
  Ascii.ascii_of_nat (48 + Z.to_nat (n `mod` 10)).

(** [n] in decimal, zero-padded to [width] digits. *)
Fixpoint pad_digits (width : nat) (n : Z) : string :=
  match width with
  | O => ""
  | S w => pad_digits w (n `div` 10) +:+ String (digit_char n) ""
  end.

(** A day number as [%Y-%m] and as [%Y-%m-%d]. *)
Definition format_Ym (day : Z) : string :=
  let '(y, m, _) := civil_from_days day in
  pad_digits 4 y +:+ "-" +:+ pad_digits 2 m.

Definition format_Ymd (day : Z) : string :=
  let '(y, m, d) := civil_from_days day in
  pad_digits 4 y +:+ "-" +:+ pad_digits 2 m +:+ "-" +:+ pad_digits 2 d.

(** [dt.strftime('%Y-%m')] and [dt.strftime('%Y-%m-%d')] *)
Definition strftime_Ym (dt : Timestamp) : string := format_Ym (date_of dt).
Definition strftime_Ymd (dt : Timestamp) : string := format_Ymd (date_of dt).

(** [get_adjusted_date] (app.py, lines 6-9). *)
Definition get_adjusted_date (dt : Timestamp) : Timestamp :=
  if hour dt <? 7 then dt - Timedelta_days 1 else dt.

(** ** Rows of the trade history *)

(** The columns of the export that [process_trades] reads. *)
Record Row := {
  exec_time : Timestamp;  (* 約定日時 *)
  trade_kind : string;    (* 取引区分 *)
  symbol : string;        (* 銘柄名 *)
  buy_sell : string;      (* 売買区分 *)
  exec_qty : Q;           (* 約定数量 *)
  exec_price : Q;         (* 約定単価 *)
  open_price : Q;         (* 建単価 *)
  realized_pl : Q         (* 実現損益（円貨） *)
}.

(** A row of [new_trades]: an opening execution with its 残り数量 column. *)
Record NewTrade := {
  nt_row : Row;
  remaining_qty : Q       (* 残り数量 *)
}.

(** One dictionary appended to [results]. *)
Record Result := {
  res_symbol : string;              (* 銘柄名 *)
  res_position : string;            (* ポジション *)
  res_profit : Q;                   (* 実現損益（円貨） *)
  res_holding : option Timedelta;   (* 保有時間, [None] for [pd.NaT] *)
  res_lots : Q;                     (* ロット数 *)
  res_type : string;                (* 取引種別 *)
  res_month : string;               (* 決済年月 *)
  res_date : string                 (* 決済日 *)
}.

(** ** Helpers of the language and of pandas *)

(** [sub in s] on strings. *)
Fixpoint contains (sub s : string) : bool :=
  String.prefix sub s ||
  match s with
  | EmptyString => false
  | String _ s' => contains sub s'
  end.

(** Python's [min(a, b)]: [b] when [b < a], else [a]. *)
Definition py_min (a b : Q) : Q := if Qle_bool a b then a else b.

Fixpoint insert_sorted {A} (le : A → A → bool) (x : A) (l : list A) : list A :=
  match l with
  | [] => [x]
  | y :: l' => if le x y then x :: l else y :: insert_sorted le x l'
  end.

(** An ascending sort that keeps equal elements in their input order. *)
Definition stable_sort {A} (le : A → A → bool) (l : list A) : list A :=
  foldr (insert_sorted le) [] l.

(** [sort_values(by=...)] on a timestamp column, ascending. *)
Definition sort_values {A} (key : A → Z) (l : list A) : list A :=
  stable_sort (λ a b, key a <=? key b) l.

(** The sum of a numeric column. *)
Definition Qsum (l : list Q) : Q := foldr Qplus 0%Q l.

(** ** The position matcher *)

(** The three classification tests of lines 19-20. *)
Definition is_new (r : Row) : bool := contains "新規" (trade_kind r).
Definition is_closed (r : Row) : bool :=
  contains "決済" (trade_kind r) || contains "ロスカット" (trade_kind r).

(** Lines 49-52 and 73-76. *)
Definition is_fx (name : string) : bool :=
  contains "JPY" name || contains "USD" name || contains "EUR" name.
Definition lot_size (name : string) : Q := if is_fx name then 10000%Q else 1%Q.
Definition trade_type (name : string) : string :=
  if is_fx name then "FX" else "CFD".

(** Lines 55 and 77. *)
Definition position_type (closed_trade : Row) : string :=
  if String.eqb (buy_sell closed_trade) "売" then "ロング" else "ショート".

(** The row filter of lines 35-40. *)
Definition eligible (closed_trade : Row) (nt : NewTrade) : bool :=
  String.eqb (symbol (nt_row nt)) (symbol closed_trade)
  && Qeq_bool (exec_price (nt_row nt)) (open_price closed_trade)
  && negb (Qle_bool (remaining_qty nt) 0)
  && (exec_time (nt_row nt) <? exec_time closed_trade).

(** [potential_matches]: the eligible rows with their index labels, in the
    order of [new_trades]. The frame is a copy: its 残り数量 values are those
    at the time of the filter. *)
Definition potential_matches (new_trades : list NewTrade) (closed_trade : Row)
    : list (nat * NewTrade) :=
  filter (λ p, eligible closed_trade p.2) (imap pair new_trades).

(** Line 56. *)
Definition pro_rata_profit (closed_trade : Row) (matched_qty : Q) : Q :=
  if negb (Qeq_bool (exec_qty closed_trade) 0)
  then (realized_pl closed_trade / exec_qty closed_trade) * matched_qty
  else 0%Q.

(** The dictionary of lines 58-67. *)
Definition matched_result (closed_trade : Row) (adjusted_date : Timestamp)
    (new_trade : NewTrade) (matched_qty : Q) : Result :=
  {| res_symbol := symbol closed_trade;
     res_position := position_type closed_trade;
     res_profit := pro_rata_profit closed_trade matched_qty;
     res_holding := Some (exec_time closed_trade - exec_time (nt_row new_trade));
     res_lots := (matched_qty / lot_size (symbol closed_trade))%Q;
     res_type := trade_type (symbol closed_trade);
     res_month := strftime_Ym adjusted_date;
     res_date := strftime_Ymd adjusted_date |}.

(** The dictionary of lines 79-88. *)
Definition unmatched_result (closed_trade : Row) (adjusted_date : Timestamp)
    : Result :=
  {| res_symbol := symbol closed_trade;
     res_position := position_type closed_trade;
     res_profit := realized_pl closed_trade;
     res_holding := None;
     res_lots := (exec_qty closed_trade / lot_size (symbol closed_trade))%Q;
     res_type := trade_type (symbol closed_trade);
     res_month := strftime_Ym adjusted_date;
     res_date := strftime_Ymd adjusted_date |}.

(** The variables the inner loop reads and writes. *)
Record MatchState := {
  new_trades : list NewTrade;
  closed_qty : Q;
  is_matched : bool;
  results : list Result
}.

(** [new_trades.at[match_index, '残り数量'] -= matched_qty] *)
Definition decrease (matched_qty : Q) (nt : NewTrade) : NewTrade :=
  {| nt_row := nt_row nt;
     remaining_qty := (remaining_qty nt - matched_qty)%Q |}.

(** The inner loop, lines 42-70, over the rows of [potential_matches] that
    are still to be visited. *)
Fixpoint match_loop (closed_trade : Row) (adjusted_date : Timestamp)
    (matches : list (nat * NewTrade)) (st : MatchState) : MatchState :=
  match matches with
  | [] => st
  | (match_index, new_trade) :: rest =>
      if Qle_bool (closed_qty st) 0 then st   (* break *)
      else
        let matched_qty := py_min (closed_qty st) (remaining_qty new_trade) in
        match_loop closed_trade adjusted_date rest
          {| new_trades := alter (decrease matched_qty) match_index (new_trades st);
             closed_qty := (closed_qty st - matched_qty)%Q;
             is_matched := true;
             results := results st ++
               [matched_result closed_trade adjusted_date new_trade matched_qty] |}
  end.

(** The state in which the inner loop ends for one closing execution. *)
Definition run_match_loop (nts : list NewTrade) (res : list Result)
    (closed_trade : Row) : MatchState :=
  match_loop closed_trade (get_adjusted_date (exec_time closed_trade))
    (potential_matches nts closed_trade)
    {| new_trades := nts;
       closed_qty := exec_qty closed_trade;
       is_matched := false;
       results := res |}.

(** The body of the outer loop, lines 31-88: the state is the [new_trades]
    frame and the [results] list. *)
Definition process_closed_trade (st : list NewTrade * list Result)
    (closed_trade : Row) : list NewTrade * list Result :=
  let adjusted_date := get_adjusted_date (exec_time closed_trade) in
  let st' := run_match_loop st.1 st.2 closed_trade in
  if is_matched st' then (new_trades st', results st')
  else (new_trades st',
        results st' ++ [unmatched_result closed_trade adjusted_date]).

(** Line 25-26: the opening executions, each with its full quantity
    remaining, sorted by timestamp. *)
Definition init_new_trades (df : list Row) : list NewTrade :=
  sort_values (λ nt, exec_time (nt_row nt))
    ((λ r, {| nt_row := r; remaining_qty := exec_qty r |}) <$> filter is_new df).

(** The outer loop from a given state. *)
Definition run_matcher (st : list NewTrade * list Result) (closed : list Row)
    : list NewTrade * list Result :=
  foldl process_closed_trade st closed.

(** The state in which [process_trades] ends. *)
Definition final_state (df : list Row) : list NewTrade * list Result :=
  run_matcher (init_new_trades df, []) (sort_values exec_time (filter is_closed df)).

(** [process_trades] (lines 11-90); the returned frame is the list of its
    rows. *)
Definition process_trades (df : list Row) : list Result :=
  match filter is_closed df with
  | [] => []
  | _ => (final_state df).2
  end.

(** ** The scenario of the specification *)

Definition mk_row (t : Z) (k s b : string) (q p op pl : Q) : Row :=
  {| exec_time := t; trade_kind := k; symbol := s; buy_sell := b;
     exec_qty := q; exec_price := p; open_price := op; realized_pl := pl |}.

Definition T0 : Timestamp := 1683712800000000000.  (* 2023-05-10 10:00 *)

Definition scenario : list Row :=
  [ mk_row T0 "新規" "USDJPY" "買" 10000 110 0 0;
    mk_row (T0 + 2 * ns_per_hour) "決済" "USDJPY" "売" 10000 111 110 10000 ].

(** ** The aggregator *)

(** A floating-point value with the IEEE special values; the finite values
    are exact rationals. *)
Inductive xnum :=
  | Fin (q : Q)
  | PInf
  | NInf
  | NaN.

(** Division as numpy does it on floats: no exception, a zero divisor gives
    an infinity of the sign of the dividend, or NaN for [0/0]. A zero
    divisor is [+0] (a count, or the result of [abs]). *)
Definition xdiv (x y : xnum) : xnum :=
  match x, y with
  | NaN, _ | _, NaN => NaN
  | Fin a, Fin b =>
      if Qeq_bool b 0 then
        match (a ?= 0)%Q with Gt => PInf | Lt => NInf | Eq => NaN end
      else Fin (a / b)
  | Fin _, (PInf | NInf) => Fin 0
  | PInf, Fin b => if Qle_bool 0 b then PInf else NInf
  | NInf, Fin b => if Qle_bool 0 b then NInf else PInf
  | (PInf | NInf), (PInf | NInf) => NaN
  end.

Definition xmul (x y : xnum) : xnum :=
  match x, y with
  | NaN, _ | _, NaN => NaN
  | Fin a, Fin b => Fin (a * b)
  | Fin a, PInf | PInf, Fin a =>
      match (a ?= 0)%Q with Gt => PInf | Lt => NInf | Eq => NaN end
  | Fin a, NInf | NInf, Fin a =>
      match (a ?= 0)%Q with Gt => NInf | Lt => PInf | Eq => NaN end
  | PInf, PInf | NInf, NInf => PInf
  | PInf, NInf | NInf, PInf => NInf
  end.

(** [abs(x)] *)
Definition xabs (x : xnum) : xnum :=
  match x with
  | Fin a => Fin (Qabs a)
  | PInf | NInf => PInf
  | NaN => NaN
  end.

(** [x.fillna(v)] *)
Definition fillna (v : xnum) (x : xnum) : xnum :=
  match x with
  | NaN => v
  | _ => x
  end.

(** An integer column used in a float operation. *)
Definition of_nat (n : nat) : xnum := Fin (inject_Z (Z.of_nat n)).

(** [s.mean()] of a float column: NaN when it is empty. *)
Definition mean (l : list Q) : xnum :=
  match l with
  | [] => NaN
  | _ => Fin (Qsum l / inject_Z (Z.of_nat (length l)))
  end.

(** The columns of the result frame that the application groups by. *)
Inductive Column :=
  | col_symbol     (* 銘柄名 *)
  | col_position   (* ポジション *)
  | col_type       (* 取引種別 *)
  | col_month      (* 決済年月 *)
  | col_date.      (* 決済日 *)

Definition column_value (c : Column) (r : Result) : string :=
  match c with
  | col_symbol => res_symbol r
  | col_position => res_position r
  | col_type => res_type r
  | col_month => res_month r
  | col_date => res_date r
  end.

(** The group key of a row: its values in the grouping columns, in order. *)
Definition group_key (group_by_cols : list Column) (r : Result) : list string :=
  (λ c, column_value c r) <$> group_by_cols.

(** The order of group keys: tuples of strings, compared item by item. *)
Fixpoint key_leb (k1 k2 : list string) : bool :=
  match k1, k2 with
  | [], _ => true
  | _ :: _, [] => false
  | s1 :: k1', s2 :: k2' =>
      match String.compare s1 s2 with
      | Lt => true
      | Gt => false
      | Eq => key_leb k1' k2'
      end
  end.

(** [df.groupby(group_by_cols)]: the distinct keys in ascending order, each
    with its rows in the order of the frame. *)
Definition groupby (group_by_cols : list Column) (df : list Result)
    : list (list string * list Result) :=
  (λ k, (k, filter (λ r, group_key group_by_cols r = k) df))
    <$> stable_sort key_leb (remove_dups (group_key group_by_cols <$> df)).

(** [(series > 0)] and [(series < 0)] on 実現損益（円貨）. *)
Definition is_win (r : Result) : bool := negb (Qle_bool (res_profit r) 0).
Definition is_loss (r : Result) : bool := negb (Qle_bool 0 (res_profit r)).

(** The column 1ロットあたり損益 of line 97: a division by a zero lot count
    gives an infinity or NaN, and both are replaced by 0. *)
Definition per_lot_profit (r : Result) : Q :=
  if Qeq_bool (res_lots r) 0 then 0%Q else (res_profit r / res_lots r)%Q.

(** [df.groupby(cols)['実現損益（円貨）'].sum()]: a series indexed by key. *)
Definition grouped_sum (group_by_cols : list Column) (df : list Result)
    : list (list string * Q) :=
  (λ kg, (kg.1, Qsum (res_profit <$> kg.2))) <$> groupby group_by_cols df.

(** The value of a series at an index label, if the label is present. *)
Fixpoint lookup_key {V} (k : list string) (s : list (list string * V)) : option V :=
  match s with
  | [] => None
  | (k', v) :: s' => if decide (k' = k) then Some v else lookup_key k s'
  end.

(** [s.reindex(index).fillna(0)] at one label of the new index. *)
Definition reindex_fillna0 (s : list (list string * Q)) (k : list string) : Q :=
  default 0%Q (lookup_key k s).

(** The derived ratios of lines 110-116, as functions of the columns they
    read. *)
Definition win_rate_of (wins count : nat) : xnum :=
  fillna (Fin 0) (xmul (xdiv (of_nat wins) (of_nat count)) (Fin 100)).
Definition profit_factor_of (gross_profit gross_loss : Q) : xnum :=
  fillna PInf (xdiv (Fin gross_profit) (xabs (Fin gross_loss))).
Definition average_of (total : Q) (count : nat) : xnum :=
  fillna (Fin 0) (xdiv (Fin total) (of_nat count)).
Definition reward_risk_of (avg_win avg_loss : xnum) : xnum :=
  fillna PInf (xdiv avg_win (xabs avg_loss)).

(** A row of the summary frame. The two mean holding-time columns
    (勝ち平均時間, 負け平均時間) are left out: no other column reads them. *)
Record SummaryRow := {
  sum_key : list string;   (* the grouping columns *)
  total_pl : Q;            (* 総損益 *)
  n_trades : nat;          (* 取引回数 *)
  n_wins : nat;            (* 勝ち数 *)
  n_losses : nat;          (* 負け数 *)
  lot_profit : xnum;       (* 1ロット利益 *)
  lot_loss : xnum;         (* 1ロット損失 *)
  win_rate : xnum;         (* 勝率 *)
  gross_profit : Q;        (* 総利益 *)
  gross_loss : Q;          (* 総損失 *)
  PF : xnum;               (* PF *)
  avg_win : xnum;          (* 平均利益 *)
  avg_loss : xnum;         (* 平均損失 *)
  RR : xnum                (* RR *)
}.

(** One row of [summary]: the aggregates of lines 99-108 for the group
    [(k, g)], then the columns added by lines 110-116. *)
Definition summary_row (group_by_cols : list Column) (df : list Result)
    (kg : list string * list Result) : SummaryRow :=
  let k := kg.1 in
  let g := kg.2 in
  let wins := length (filter is_win g) in
  let losses := length (filter is_loss g) in
  let count := length g in
  let total_win := reindex_fillna0 (grouped_sum group_by_cols (filter is_win df)) k in
  let total_loss := reindex_fillna0 (grouped_sum group_by_cols (filter is_loss df)) k in
  let average_win := average_of total_win wins in
  let average_loss := average_of total_loss losses in
  {| sum_key := k;
     total_pl := Qsum (res_profit <$> g);
     n_trades := count;
     n_wins := wins;
     n_losses := losses;
     lot_profit := mean (per_lot_profit <$> filter is_win g);
     lot_loss := mean (per_lot_profit <$> filter is_loss g);
     win_rate := win_rate_of wins count;
     gross_profit := total_win;
     gross_loss := total_loss;
     PF := profit_factor_of total_win total_loss;
     avg_win := average_win;
     avg_loss := average_loss;
     RR := reward_risk_of average_win average_loss |}.

(** [analyze_summary] (lines 92-118). The empty frame has no groups, so the
    early return of line 93 is the general case. *)
Definition analyze_summary (df : list Result) (group_by_cols : list Column)
    : list SummaryRow :=
  summary_row group_by_cols df <$> groupby group_by_cols df.

(** ** The quantities matched by one pass of the inner loop *)

(** The successive values of [matched_qty] when the loop starts with
    [closed_qty = q] and visits rows whose remaining quantities are [rems]. *)
Fixpoint allocation (q : Q) (rems : list Q) : list Q :=
  match rems with
  | [] => []
  | r :: rems' =>
      if Qle_bool q 0 then []
      else py_min q r :: allocation (q - py_min q r)%Q rems'
  end.

(** The updates of line 69 for the visited rows. *)
Definition apply_matches (nts : list NewTrade)
    (ms : list ((nat * NewTrade) * Q)) : list NewTrade :=
  foldl (λ nts pm, alter (decrease pm.2) pm.1.1 nts) nts ms.

(** The order in which [new_trades] is kept: sorted by 約定日時 (line 26). *)
Definition by_time (a b : NewTrade) : Prop :=
  exec_time (nt_row a) ≤ exec_time (nt_row b).

(** ** Sample data *)

(** Three opening executions of USDJPY at 110, one hour apart from [T0], with
    6000, 10000 and 10000 units remaining. *)
Definition open_at (h : Z) (q : Q) : NewTrade :=
  {| nt_row := mk_row (T0 + h * ns_per_hour) "新規" "USDJPY" "買" q 110 0 0;
     remaining_qty := q |}.

Definition sample_opens : list NewTrade :=
  [open_at 0 6000; open_at 1 10000; open_at 2 10000].

(** A closing execution of [q] units of USDJPY opened at 110, five hours
    after [T0], with realized profit [pl]. *)
Definition close_of (q pl : Q) : Row :=
  mk_row (T0 + 5 * ns_per_hour) "決済" "USDJPY" "売" q 111 110 pl.

(** A closing execution of a CFD instrument that was never opened in the
    sample. *)
Definition cfd_close : Row :=
  mk_row (T0 + 5 * ns_per_hour) "決済" "日本225" "買" 30000 33000 32000 (-4500).

(** The sample as a trade history: the three opening executions, then a
    closing execution of 5000 units. *)
Definition sample_df : list Row :=
  (nt_row <$> sample_opens) ++ [close_of 5000 700].

(** A trade history whose only opening execution has a negative quantity. *)
Definition negative_open : NewTrade :=
  {| nt_row := mk_row T0 "新規" "USDJPY" "買" (-5000) 110 0 0;
     remaining_qty := (-5000)%Q |}.

Definition negative_df : list Row := [nt_row negative_open; close_of 5000 700].

(** A trade history of one FX instrument and one of a CFD instrument, each
    an opening execution of 30000 units and the closing execution of the
    same 30000 units two hours later. *)
Definition fx_df : list Row :=
  [ mk_row T0 "新規" "EURUSD" "買" 30000 (108 # 100) 0 0;
    mk_row (T0 + 2 * ns_per_hour) "決済" "EURUSD" "売" 30000 (109 # 100) (108 # 100) 45000 ].

Definition cfd_df : list Row :=
  [ mk_row T0 "新規" "日本225" "買" 30000 32000 0 0;
    mk_row (T0 + 2 * ns_per_hour) "決済" "日本225" "売" 30000 32010 32000 300000 ].

(** 2024-03-01 06:30, and an opening execution two days before it. *)
Definition early_morning : Timestamp := 1709274600000000000.

Definition early_df : list Row :=
  [ mk_row (early_morning - 2 * ns_per_day) "新規" "USDJPY" "買" 10000 150 0 0;
    mk_row early_morning "決済" "USDJPY" "売" 10000 151 150 10000 ].

(** ** The slices of a run *)

(** The slices that one closing execution cuts: for each visited row of
    [potential_matches], its index label in [new_trades], the row, and the
    matched quantity. *)
Definition slices (nts : list NewTrade) (c : Row) : list ((nat * NewTrade) * Q) :=
  zip (potential_matches nts c)
    (allocation (exec_qty c) ((remaining_qty ∘ snd) <$> potential_matches nts c)).

(** The slices of a sequence of closing executions, in the order in which
    their rows are appended to [results]. *)
Fixpoint run_slices (nts : list NewTrade) (closed : list Row)
    : list ((nat * NewTrade) * Q) :=
  match closed with
  | [] => []
  | c :: closed' =>
      slices nts c ++ run_slices (process_closed_trade (nts, []) c).1 closed'
  end.

(** The total quantity that the slices [sl] take from the row of index [i]. *)
Definition taken_from (i : nat) (sl : list ((nat * NewTrade) * Q)) : Q :=
  Qsum (snd <$> filter (λ pm, pm.1.1 = i) sl).

(** The raw quantities of the matched slices among result rows: the rows
    that carry a holding time, with the division by the lot size undone. *)
Definition matched_quantities (res : list Result) : list Q :=
  (λ l, res_lots l * lot_size (res_symbol l))%Q
    <$> filter (λ l, is_Some (res_holding l)) res.

(** ** Formatting of the summary tables *)

Definition ns_per_second : Z := 1000000000.
Definition ns_per_minute : Z := 60000000000.

(** [td.days] and [td.seconds] of a Timedelta: whole days (rounded down),
    and the whole seconds of the rest of the day. *)
Definition td_days (td : Timedelta) : Z := td `div` ns_per_day.
Definition td_seconds (td : Timedelta) : Z :=
  (td `mod` ns_per_day) `div` ns_per_second.

(** [format_timedelta] (lines 121-127); [None] is [pd.NaT]. *)
Definition format_timedelta (td : option Timedelta) : string :=
  match td with
  | None => "N/A"
  | Some td =>
      let days := td_days td in
      let hours := td_seconds td `div` 3600 in
      let remainder := td_seconds td `mod` 3600 in
      let minutes := remainder `div` 60 in
      pretty days +:+ "日" +:+ pretty hours +:+ "時間" +:+ pretty minutes +:+ "分"
  end.







(** ** The tables of the application *)

(** Lines 191-193: the columns 決済年月 and 決済日 of the trade history. *)
Definition row_month (r : Row) : string :=
  strftime_Ym (get_adjusted_date (exec_time r)).
Definition row_date (r : Row) : string :=
  strftime_Ymd (get_adjusted_date (exec_time r)).

(** Lines 195-198: the swap rows and their sums. *)
Definition is_swap (r : Row) : bool := contains "スワップ" (trade_kind r).
Definition swap_df (df : list Row) : list Row := filter is_swap df.

(** [swap_df.groupby(col)['実現損益（円貨）'].sum()], a series indexed by the
    values of [col]. *)
Definition swap_summary (col : Row → string) (df : list Row)
    : list (list string * Q) :=
  (λ k, (k, Qsum (realized_pl <$> filter (λ r, [col r] = k) (swap_df df))))
    <$> stable_sort key_leb (remove_dups ((λ r, [col r]) <$> swap_df df)).

Definition monthly_swap_summary (df : list Row) : list (list string * Q) :=
  swap_summary row_month df.
Definition daily_swap_summary (df : list Row) : list (list string * Q) :=
  swap_summary row_date df.

(** Lines 203-204: the FX rows and the CFD rows of the analyzed frame (the
    source names them [fx_df] and [cfd_df]). *)
Definition fx_frame (analyzed_df : list Result) : list Result :=
  filter (λ l, res_type l = "FX") analyzed_df.
Definition cfd_frame (analyzed_df : list Result) : list Result :=
  filter (λ l, res_type l = "CFD") analyzed_df.

(** [series.cumsum()] *)
Fixpoint cumsum_from (acc : Q) (l : list Q) : list Q :=
  match l with
  | [] => []
  | x :: l' => (acc + x)%Q :: cumsum_from (acc + x)%Q l'
  end.
Definition cumsum (l : list Q) : list Q := cumsum_from 0 l.

(** [pd.merge(left, right, on=key, how='outer').fillna(0)] for two frames
    with one value column each and no repeated key: one row per key of
    either frame, the keys in ascending order, a missing value filled
    with 0. *)
Definition merge_outer_fillna0 (left right : list (list string * Q))
    : list (list string * (Q * Q)) :=
  (λ k, (k, (reindex_fillna0 left k, reindex_fillna0 right k)))
    <$> stable_sort key_leb (remove_dups (left.*1 ++ right.*1)).

(** The columns (key, 総損益) of a summary frame. *)
Definition summary_totals (summary : list SummaryRow) : list (list string * Q) :=
  (λ r, (sum_key r, total_pl r)) <$> summary.

(** Lines 219-225: the FX daily chart, as the columns 決済日, 日次合計損益
    and 累積損益 of [chart_df_daily]. The chart is drawn only when there are
    FX rows (lines 202 and 208). *)
Definition chart_df_daily (df : list Row) : option (list (list string * (Q * Q))) :=
  match fx_frame (process_trades df) with
  | [] => None
  | fx =>
      let merged := merge_outer_fillna0
                      (summary_totals (analyze_summary fx [col_date]))
                      (daily_swap_summary df) in
      let daily_total := (λ kv, kv.2.1 + kv.2.2)%Q <$> merged in
      Some (zip merged.*1 (zip daily_total (cumsum daily_total)))
  end.

(** Lines 227-238: the FX monthly table, as its columns 決済年月, 売買損益,
    スワップ and 総損益 (the other columns of the merged frame are left
    out). *)
Definition combined_monthly (df : list Row)
    : option (list (list string * (Q * Q * Q))) :=
  match fx_frame (process_trades df) with
  | [] => None
  | fx =>
      let merged := merge_outer_fillna0
                      (summary_totals (analyze_summary fx [col_month]))
                      (monthly_swap_summary df) in
      Some ((λ kv, (kv.1, (kv.2.1, kv.2.2, kv.2.1 + kv.2.2)%Q)) <$> merged)
  end.



(** Lines 257 and 262-264: the CFD daily chart, the columns 決済日, 総損益
    and 累積損益. It is drawn only when there are CFD rows. *)
Definition cfd_daily_chart (df : list Row)
    : option (list (list string * (Q * Q))) :=
  match cfd_frame (process_trades df) with
  | [] => None
  | cfd =>
      let summary := analyze_summary cfd [col_date] in
      Some (zip (sum_key <$> summary)
                (zip (total_pl <$> summary) (cumsum (total_pl <$> summary))))
  end.

(** Keys in strictly ascending order: each key is below every later one. *)
Definition ascending_keys (ks : list (list string)) : Prop :=
  StronglySorted (λ a b, key_leb a b = true ∧ key_leb b a = false) ks.

(** A trade history with FX and CFD trades and two swap rows. *)
Definition mixed_df : list Row :=
  sample_df ++ cfd_df
  ++ [ mk_row (T0 + 20 * ns_per_hour) "スワップ" "USDJPY" "" 0 0 0 120;
       mk_row (T0 + 44 * ns_per_hour) "スワップ" "USDJPY" "" 0 0 0 (-30) ].

(** A result row that the body of the outer loop can append for the closing
    execution [c]: the unmatched row, or a matched slice of a positive
    quantity, at most the quantity of [c], cut from an eligible row. *)
Definition emitted_for (c : Row) (l : Result) : Prop :=
  l = unmatched_result c (get_adjusted_date (exec_time c))
  ∨ ∃ o (m : Q),
      eligible c o = true ∧ (0 < m)%Q ∧ (m <= exec_qty c)%Q
      ∧ l = matched_result c (get_adjusted_date (exec_time c)) o m.

(** * Properties *)

(** ** Rational arithmetic *)

Lemma Qsum_cons (x : Q) (l : list Q) : Qsum (x :: l) = (x + Qsum l)%Q.
Proof. done. Qed.

Lemma Qsum_app (l1 l2 : list Q) : (Qsum (l1 ++ l2) == Qsum l1 + Qsum l2)%Q.
Proof.
  induction l1 as [|x l1 IH]; simpl.
  - lra.
  - rewrite IH. lra.
Qed.

Lemma Qle_bool_false (x y : Q) : Qle_bool x y = false → (y < x)%Q.
Proof.
  intros H. apply Qnot_le_lt. intros Hle.
  apply Qle_bool_iff in Hle. congruence.
Qed.

Lemma py_min_le_l (a b : Q) : (py_min a b <= a)%Q.
Proof.
  unfold py_min. destruct (Qle_bool a b) eqn:E.
  - lra.
  - apply Qle_bool_false in E. lra.
Qed.

Lemma py_min_le_r (a b : Q) : (py_min a b <= b)%Q.
Proof.
  unfold py_min. destruct (Qle_bool a b) eqn:E.
  - by apply Qle_bool_iff.
  - lra.
Qed.

Lemma py_min_pos (a b : Q) : (0 < a)%Q → (0 < b)%Q → (0 < py_min a b)%Q.
Proof. intros Ha Hb. unfold py_min. by destruct (Qle_bool a b). Qed.

Lemma py_min_l (a b : Q) : (a <= b)%Q → py_min a b = a.
Proof. intros H. unfold py_min. apply Qle_bool_iff in H. by rewrite H. Qed.

Lemma py_min_r (a b : Q) : (b < a)%Q → py_min a b = b.
Proof.
  intros H. unfold py_min. destruct (Qle_bool a b) eqn:E; [|done].
  apply Qle_bool_iff in E. lra.
Qed.

(** ** The inner loop as the allocation of the closing quantity *)

Lemma zip_with_nil_right {A B C} (f : A → B → C) (l : list A) :
  zip_with f l [] = [].
Proof. by destruct l. Qed.

Lemma match_loop_allocation c ad matches st :
  let ms := allocation (closed_qty st) ((remaining_qty ∘ snd) <$> matches) in
  match_loop c ad matches st =
  {| new_trades := apply_matches (new_trades st) (zip matches ms);
     closed_qty := foldl Qminus (closed_qty st) ms;
     is_matched := match ms with [] => is_matched st | _ => true end;
     results := results st ++
       zip_with (λ p m, matched_result c ad p.2 m) matches ms |}.
Proof.
  revert st. induction matches as [|[i o] matches IH]; intros st; simpl.
  - rewrite app_nil_r. by destruct st.
  - destruct (Qle_bool (closed_qty st) 0) eqn:E; simpl.
    + rewrite app_nil_r. by destruct st.
    + rewrite IH. simpl. f_equal.
      * by destruct (allocation _ _).
      * by rewrite <- app_assoc.
Qed.

Lemma foldl_Qminus (q : Q) (ms : list Q) : (foldl Qminus q ms == q - Qsum ms)%Q.
Proof.
  revert q. induction ms as [|m ms IH]; intros q; simpl.
  - lra.
  - rewrite IH. lra.
Qed.

Lemma allocation_nil (q : Q) (rems : list Q) :
  Qle_bool q 0 = true → allocation q rems = [].
Proof. intros H. destruct rems; simpl; [done|]. by rewrite H. Qed.

Lemma allocation_length (q : Q) (rems : list Q) :
  (length (allocation q rems) ≤ length rems)%nat.
Proof.
  revert q. induction rems as [|r rems IH]; intros q; simpl; [lia|].
  destruct (Qle_bool q 0); simpl; [lia|]. specialize (IH (q - py_min q r)%Q). lia.
Qed.

Lemma allocation_pos (q : Q) (rems : list Q) :
  allocation q rems ≠ [] → (0 < q)%Q.
Proof.
  destruct rems as [|r rems]; simpl; [done|].
  destruct (Qle_bool q 0) eqn:E; [done|]. intros _. by apply Qle_bool_false.
Qed.

Lemma allocation_bounds (q : Q) (rems : list Q) :
  Forall (λ r, (0 < r)%Q) rems →
  Forall2 (λ m r, (0 < m)%Q ∧ (m <= r)%Q)
    (allocation q rems) (take (length (allocation q rems)) rems).
Proof.
  intros Hpos. revert q. induction Hpos as [|r rems Hr Hpos IH]; intros q; simpl.
  - constructor.
  - destruct (Qle_bool q 0) eqn:E; simpl; constructor.
    + split; [|apply py_min_le_r].
      apply py_min_pos; [by apply Qle_bool_false | done].
    + apply IH.
Qed.

Lemma allocation_exceed (q : Q) (rems : list Q) :
  Forall (λ r, (0 < r)%Q) rems → (Qsum rems < q)%Q → allocation q rems = rems.
Proof.
  intros Hpos. revert q. induction Hpos as [|r rems Hr Hpos IH]; intros q Hq; simpl in *.
  - done.
  - assert (0 <= Qsum rems)%Q as Hs.
    { clear -Hpos. induction Hpos; simpl; lra. }
    destruct (Qle_bool q 0) eqn:E.
    + apply Qle_bool_iff in E. lra.
    + rewrite py_min_r by lra. f_equal. apply IH. lra.
Qed.

(** ** The updates of the remaining quantities *)

Lemma apply_matches_length nts ms :
  length (apply_matches nts ms) = length nts.
Proof.
  revert nts. induction ms as [|pm ms IH]; intros nts; simpl; [done|].
  unfold apply_matches in *. simpl. by rewrite IH, length_alter.
Qed.

Lemma apply_matches_other nts ms (j : nat) :
  j ∉ ms.*1.*1 → apply_matches nts ms !! j = nts !! j.
Proof.
  revert nts. induction ms as [|[[i o] m] ms IH]; intros nts Hj; [done|].
  simpl in Hj. apply not_elem_of_cons in Hj as [Hne Hj].
  unfold apply_matches in *. simpl. rewrite IH by done.
  by apply list_lookup_alter_ne.
Qed.

Lemma apply_matches_hit nts ms (i : nat) o m :
  NoDup ms.*1.*1 → ((i, o), m) ∈ ms → nts !! i = Some o →
  apply_matches nts ms !! i = Some (decrease m o).
Proof.
  revert nts. induction ms as [|[[i' o'] m'] ms IH]; intros nts Hnd Hin Hi.
  - by apply elem_of_nil in Hin.
  - simpl in Hnd. apply NoDup_cons in Hnd as [Hfresh Hnd].
    apply elem_of_cons in Hin as [Heq|Hin].
    + inversion Heq; subst. unfold apply_matches. simpl.
      fold (apply_matches (alter (decrease m') i' nts) ms).
      rewrite apply_matches_other by done.
      by rewrite list_lookup_alter_eq, Hi.
    + assert (i ≠ i') as Hne.
      { intros ->. apply Hfresh.
        apply list_elem_of_fmap. exists (i', o). split; [done|].
        apply list_elem_of_fmap. by exists ((i', o), m). }
      unfold apply_matches. simpl.
      fold (apply_matches (alter (decrease m') i' nts) ms).
      apply IH; [done..|]. by rewrite list_lookup_alter_ne.
Qed.

Lemma apply_matches_row nts ms (j : nat) o :
  nts !! j = Some o →
  ∃ o', apply_matches nts ms !! j = Some o' ∧ nt_row o' = nt_row o.
Proof.
  revert nts o. induction ms as [|[[i o1] m] ms IH]; intros nts o Hj.
  - by exists o.
  - unfold apply_matches. simpl.
    fold (apply_matches (alter (decrease m) i nts) ms).
    destruct (decide (i = j)) as [->|Hne].
    + destruct (IH (alter (decrease m) j nts) (decrease m o)) as (o' & H1 & H2).
      { by rewrite list_lookup_alter_eq, Hj. }
      by exists o'.
    + apply IH. by rewrite list_lookup_alter_ne.
Qed.

(** ** The eligible rows *)

Lemma potential_matches_elem nts c (i : nat) o :
  (i, o) ∈ potential_matches nts c ↔ nts !! i = Some o ∧ eligible c o = true.
Proof.
  unfold potential_matches. rewrite list_elem_of_filter, elem_of_lookup_imap.
  simpl. split.
  - intros [He (j & y & Heq & Hj)]. inversion Heq; subst.
    split; [done|]. by apply Is_true_true.
  - intros [Hi He]. split; [by apply Is_true_true|]. by exists i, o.
Qed.

Lemma imap_pair_NoDup {A} (l : list A) : NoDup (imap pair l).
Proof.
  apply NoDup_alt. intros i j [k x] Hi Hj.
  rewrite list_lookup_imap in Hi, Hj.
  destruct (l !! i) eqn:Ei; [|done]. destruct (l !! j) eqn:Ej; [|done].
  simpl in *. congruence.
Qed.

Lemma potential_matches_NoDup nts c : NoDup (potential_matches nts c).*1.
Proof.
  apply NoDup_fmap_fst.
  - intros i o1 o2 H1 H2.
    apply potential_matches_elem in H1 as [H1 _].
    apply potential_matches_elem in H2 as [H2 _]. congruence.
  - apply NoDup_filter, imap_pair_NoDup.
Qed.

Lemma potential_matches_positive nts c :
  Forall (λ r, (0 < r)%Q) ((remaining_qty ∘ snd) <$> potential_matches nts c).
Proof.
  apply Forall_fmap, Forall_forall. intros [i o] Hin. simpl.
  apply potential_matches_elem in Hin as [_ He].
  unfold eligible in He. apply andb_prop in He as [He _].
  apply andb_prop in He as [_ He]. apply negb_true_iff in He.
  by apply Qle_bool_false.
Qed.

(** ** One closing execution *)

Lemma run_match_loop_allocation nts res c :
  let matches := potential_matches nts c in
  let ms := allocation (exec_qty c) ((remaining_qty ∘ snd) <$> matches) in
  run_match_loop nts res c =
  {| new_trades := apply_matches nts (zip matches ms);
     closed_qty := foldl Qminus (exec_qty c) ms;
     is_matched := match ms with [] => false | _ => true end;
     results := res ++
       zip_with (λ p m, matched_result c (get_adjusted_date (exec_time c)) p.2 m)
         matches ms |}.
Proof. unfold run_match_loop. by rewrite match_loop_allocation. Qed.

Lemma pro_rata_profit_nonzero c (m : Q) :
  ¬ (exec_qty c == 0)%Q →
  (pro_rata_profit c m == realized_pl c * m / exec_qty c)%Q.
Proof.
  intros Hq. unfold pro_rata_profit.
  destruct (Qeq_bool (exec_qty c) 0) eqn:E.
  - by apply Qeq_bool_iff in E.
  - simpl. by field.
Qed.

Lemma matched_profit_sum c ad (matches : list (nat * NewTrade)) (ms : list Q) :
  ¬ (exec_qty c == 0)%Q →
  (Qsum (res_profit <$> zip_with (λ p m, matched_result c ad p.2 m) matches ms)
   == realized_pl c * Qsum (take (length matches) ms) / exec_qty c)%Q.
Proof.
  intros Hq. revert ms. induction matches as [|p matches IH]; intros ms; simpl.
  - by field.
  - destruct ms as [|m ms]; simpl.
    + by field.
    + rewrite IH, pro_rata_profit_nonzero by done. by field.
Qed.

Lemma matched_lots_sum c ad (matches : list (nat * NewTrade)) (ms : list Q) :
  (Qsum ((λ l, res_lots l * lot_size (symbol c))%Q
           <$> zip_with (λ p m, matched_result c ad p.2 m) matches ms)
   == Qsum (take (length matches) ms))%Q.
Proof.
  assert (¬ (lot_size (symbol c) == 0)%Q) as Hd.
  { unfold lot_size. by destruct (is_fx _). }
  revert ms. induction matches as [|p matches IH]; intros ms; simpl.
  - done.
  - destruct ms as [|m ms]; simpl; [done|].
    rewrite IH. by field.
Qed.

Lemma Qsum_positive_nonneg (rems : list Q) :
  Forall (λ r, (0 < r)%Q) rems → (0 <= Qsum rems)%Q.
Proof. induction 1; simpl; lra. Qed.

Lemma allocation_cover (q : Q) (rems : list Q) :
  Forall (λ r, (0 < r)%Q) rems → (0 < q)%Q → (q <= Qsum rems)%Q →
  (Qsum (allocation q rems) == q)%Q.
Proof.
  intros Hpos. revert q. induction Hpos as [|r rems Hr Hpos IH]; intros q Hq Hle;
    simpl in *; [lra|].
  destruct (Qle_bool q 0) eqn:E; [apply Qle_bool_iff in E; lra|].
  destruct (Qlt_le_dec r q) as [Hlt|Hge].
  - rewrite py_min_r by done. rewrite Qsum_cons, IH by lra. lra.
  - rewrite py_min_l by done. rewrite Qsum_cons.
    rewrite allocation_nil by (apply Qle_bool_iff; lra). simpl. lra.
Qed.

Lemma allocation_sum_le (q : Q) (rems : list Q) :
  Forall (λ r, (0 < r)%Q) rems → (Qsum (allocation q rems) <= Qsum rems)%Q.
Proof.
  intros Hpos. revert q. induction Hpos as [|r rems Hr Hpos IH]; intros q;
    simpl; [lra|].
  pose proof (Qsum_positive_nonneg _ Hpos).
  destruct (Qle_bool q 0); simpl; [lra|].
  pose proof (py_min_le_r q r). specialize (IH (q - py_min q r)%Q). lra.
Qed.

(** The inner loop ends with [is_matched] set and [closed_qty] at zero
    exactly when some row is eligible and the eligible rows hold at least the
    (positive) quantity of the closing execution. *)
Lemma fully_absorbed_iff nts res c :
  is_matched (run_match_loop nts res c) = true
  ∧ (closed_qty (run_match_loop nts res c) == 0)%Q
  ↔ potential_matches nts c ≠ []
    ∧ (0 < exec_qty c)%Q
    ∧ (exec_qty c <= Qsum ((remaining_qty ∘ snd) <$> potential_matches nts c))%Q.
Proof.
  rewrite run_match_loop_allocation. simpl. rewrite foldl_Qminus.
  pose proof (potential_matches_positive nts c) as Hpos.
  set (rems := (remaining_qty ∘ snd) <$> potential_matches nts c) in *.
  split.
  - intros [Hm Hq].
    assert (allocation (exec_qty c) rems ≠ []) as Hne
      by (by destruct (allocation _ _)).
    split; [|split].
    + intros Hnil. apply Hne. unfold rems. by rewrite Hnil.
    + by apply allocation_pos in Hne.
    + pose proof (allocation_sum_le (exec_qty c) rems Hpos). lra.
  - intros (Hne & Hq0 & Hq1). split.
    + destruct rems as [|r rems'] eqn:E.
      { unfold rems in E. by apply fmap_nil_inv in E. }
      simpl. destruct (Qle_bool (exec_qty c) 0) eqn:E'; [|done].
      apply Qle_bool_iff in E'. lra.
    + rewrite allocation_cover by done. lra.
Qed.

(** ** Conservation of the realized profit *)

(** C1. When the inner loop for a closing execution [c] ends with
    [is_matched] set and [closed_qty] back to zero (the quantity of [c] is
    fully absorbed by one or more opening rows), the rows appended to
    [results] for [c] are matched slices whose profit is
    [realized_pl c * m / exec_qty c] for the slice's raw quantity [m] (and 0
    if [exec_qty c] is 0), and these profits sum to [realized_pl c]. *)
Theorem conservation nts res c :
  is_matched (run_match_loop nts res c) = true →
  (closed_qty (run_match_loop nts res c) == 0)%Q →
  ∃ lots,
    (process_closed_trade (nts, res) c).2 = res ++ lots
    ∧ Forall (λ l, ∃ m : Q,
        res_lots l = (m / lot_size (symbol c))%Q
        ∧ is_Some (res_holding l)
        ∧ (res_profit l ==
             if Qeq_bool (exec_qty c) 0 then 0
             else realized_pl c * m / exec_qty c)%Q) lots
    ∧ (Qsum (res_profit <$> lots) == realized_pl c)%Q.
Proof.
  intros Hm Hq. unfold process_closed_trade. simpl. rewrite Hm. simpl.
  rewrite run_match_loop_allocation in Hm, Hq |- *. simpl in *.
  set (matches := potential_matches nts c) in *.
  set (ms := allocation _ _) in *.
  assert (0 < exec_qty c)%Q as Hpos.
  { apply (allocation_pos _ ((remaining_qty ∘ snd) <$> matches)).
    fold ms. by destruct ms. }
  assert (¬ (exec_qty c == 0)%Q) as Hne by lra.
  eexists. split; [done|]. split.
  - apply Forall_forall. intros l Hl.
    apply elem_of_lookup_zip_with in Hl as (k & p & m & -> & _ & _).
    exists m. split; [done|]. split; [by eexists|]. simpl.
    destruct (Qeq_bool (exec_qty c) 0) eqn:E.
    + by apply Qeq_bool_iff in E.
    + by apply pro_rata_profit_nonzero.
  - rewrite matched_profit_sum by done.
    rewrite take_ge.
    2:{ unfold ms. etrans; [apply allocation_length|]. by rewrite length_fmap. }
    rewrite foldl_Qminus in Hq.
    assert (Qsum ms == exec_qty c)%Q as -> by lra. by field.
Qed.

Lemma conservation_witness :
  ∃ lots,
    (process_closed_trade (sample_opens, []) (close_of 10000 5000)).2 = [] ++ lots
    ∧ Forall (λ l, ∃ m : Q,
        res_lots l = (m / lot_size (symbol (close_of 10000 5000)))%Q
        ∧ is_Some (res_holding l)
        ∧ (res_profit l ==
             if Qeq_bool (exec_qty (close_of 10000 5000)) 0 then 0
             else realized_pl (close_of 10000 5000) * m
                  / exec_qty (close_of 10000 5000))%Q) lots
    ∧ (Qsum (res_profit <$> lots) == realized_pl (close_of 10000 5000))%Q.
Proof.
  apply (conservation sample_opens [] (close_of 10000 5000)).
  - vm_compute. reflexivity.
  - vm_compute. reflexivity.
Defined.

Lemma unmatched_step nts res c :
  allocation (exec_qty c) ((remaining_qty ∘ snd) <$> potential_matches nts c) = [] →
  process_closed_trade (nts, res) c =
  (nts, res ++ [unmatched_result c (get_adjusted_date (exec_time c))]).
Proof.
  intros Ha. unfold process_closed_trade. simpl.
  rewrite run_match_loop_allocation. simpl. rewrite Ha. simpl.
  assert (∀ (A B : Type) (l : list A), zip l (@nil B) = []) as Hz
    by (by intros A B [|??]).
  assert (∀ (A B C : Type) (f : A → B → C) (l : list A), zip_with f l [] = [])
    as Hzw by (by intros A B C f [|??]).
  by rewrite Hz, Hzw, app_nil_r.
Qed.

Lemma filter_none {A} (P : A → Prop) `{∀ x, Decision (P x)} (l : list A) :
  Forall (λ x, ¬ P x) l → filter P l = [].
Proof.
  induction 1 as [|x l Hx Hl IH]; [done|].
  by rewrite filter_cons_False.
Qed.

Lemma potential_matches_none nts c :
  Forall (λ o, eligible c o = false) nts → potential_matches nts c = [].
Proof.
  intros Hall. apply filter_none, Forall_forall. intros [i o] Hin He.
  apply elem_of_lookup_imap in Hin as (j & y & Heq & Hj). inversion Heq; subst.
  rewrite Forall_lookup in Hall. specialize (Hall _ _ Hj).
  simpl in He. rewrite Hall in He. done.
Qed.

(** ** A closing execution with no eligible opening row *)

(** C4. When no row of [new_trades] is eligible for the closing execution
    [c], processing [c] leaves [new_trades] as it is and appends exactly one
    row to [results]: it carries the full realized profit of [c], the full
    quantity of [c] divided by the lot size, and no holding time. *)
Theorem unmatched_fallback nts res c :
  Forall (λ o, eligible c o = false) nts →
  ∃ l,
    process_closed_trade (nts, res) c = (nts, res ++ [l])
    ∧ res_profit l = realized_pl c
    ∧ res_lots l = (exec_qty c / lot_size (symbol c))%Q
    ∧ res_holding l = None.
Proof.
  intros Hall. exists (unmatched_result c (get_adjusted_date (exec_time c))).
  split; [|done]. apply unmatched_step. by rewrite potential_matches_none.
Qed.

Lemma unmatched_fallback_witness :
  ∃ l,
    process_closed_trade (sample_opens, []) cfd_close = (sample_opens, [] ++ [l])
    ∧ res_profit l = realized_pl cfd_close
    ∧ res_lots l = (exec_qty cfd_close / lot_size (symbol cfd_close))%Q
    ∧ res_holding l = None.
Proof.
  apply (unmatched_fallback sample_opens [] cfd_close).
  repeat constructor.
Defined.

(** ** A closing execution of quantity zero *)

(** C9. A closing execution [c] of quantity zero leaves [new_trades] as it
    is, whatever rows are eligible, and appends exactly one row to
    [results]: the full realized profit of [c], a lot count of zero, and no
    holding time. *)
Theorem zero_quantity_close nts res c :
  (exec_qty c == 0)%Q →
  ∃ l,
    process_closed_trade (nts, res) c = (nts, res ++ [l])
    ∧ res_profit l = realized_pl c
    ∧ (res_lots l == 0)%Q
    ∧ res_holding l = None.
Proof.
  intros Hq. exists (unmatched_result c (get_adjusted_date (exec_time c))).
  split; [|split; [done|split; [|done]]].
  - apply unmatched_step, allocation_nil, Qle_bool_iff. lra.
  - simpl. rewrite Hq. unfold lot_size. destruct (is_fx _); reflexivity.
Qed.

Lemma zero_quantity_close_witness :
  potential_matches sample_opens (close_of 0 700) ≠ []
  ∧ ∃ l,
      process_closed_trade (sample_opens, []) (close_of 0 700)
        = (sample_opens, [] ++ [l])
      ∧ res_profit l = realized_pl (close_of 0 700)
      ∧ (res_lots l == 0)%Q
      ∧ res_holding l = None.
Proof.
  split; [by vm_compute|].
  apply (zero_quantity_close sample_opens [] (close_of 0 700)).
  reflexivity.
Defined.

(** ** A closing execution larger than its eligible opening rows *)

(** C5. When some row is eligible for [c] but the quantity of [c] exceeds
    the total remaining quantity of the eligible rows, the rows appended to
    [results] for [c] are one matched slice per eligible row, each of that
    row's whole remaining quantity. No row without holding time is appended:
    the slices cover the matched quantity only, and the share of the
    profit that belongs to the leftover quantity is in no row. *)
Theorem partial_match_drops_remainder nts res c :
  potential_matches nts c ≠ [] →
  (Qsum ((remaining_qty ∘ snd) <$> potential_matches nts c) < exec_qty c)%Q →
  ∃ lots,
    (process_closed_trade (nts, res) c).2 = res ++ lots
    ∧ lots = (λ p, matched_result c (get_adjusted_date (exec_time c)) p.2
                     (remaining_qty p.2)) <$> potential_matches nts c
    ∧ Forall (λ l, is_Some (res_holding l)) lots
    ∧ (Qsum ((λ l, res_lots l * lot_size (symbol c))%Q <$> lots)
       == Qsum ((remaining_qty ∘ snd) <$> potential_matches nts c))%Q
    ∧ (Qsum (res_profit <$> lots)
       + realized_pl c
         * (exec_qty c - Qsum ((remaining_qty ∘ snd) <$> potential_matches nts c))
         / exec_qty c
       == realized_pl c)%Q.
Proof.
  intros Hne Hlt.
  pose proof (potential_matches_positive nts c) as Hpos.
  pose proof (allocation_exceed _ _ Hpos Hlt) as Ha.
  set (matches := potential_matches nts c) in *.
  set (rems := (remaining_qty ∘ snd) <$> matches) in *.
  set (ad := get_adjusted_date (exec_time c)).
  assert (0 <= Qsum rems)%Q as Hs.
  { clear -Hpos. induction Hpos; simpl; lra. }
  assert (¬ (exec_qty c == 0)%Q) as Hq by lra.
  assert (zip_with (λ p m, matched_result c ad p.2 m) matches rems
          = (λ p, matched_result c ad p.2 (remaining_qty p.2)) <$> matches) as Hz.
  { unfold rems. by rewrite zip_with_fmap_r, zip_with_diag. }
  assert (take (length matches) rems = rems) as Ht.
  { apply take_ge. unfold rems. by rewrite length_fmap. }
  eexists. split; [|split; [reflexivity|]].
  - unfold process_closed_trade. simpl. rewrite run_match_loop_allocation. simpl.
    fold matches. fold rems. rewrite Ha. fold ad. rewrite Hz.
    destruct rems eqn:E; [|done].
    unfold rems in E. apply fmap_nil_inv in E. done.
  - rewrite <- Hz. split; [|split].
    + apply Forall_forall. intros l Hl.
      apply elem_of_lookup_zip_with in Hl as (k & p & m & -> & _ & _).
      by eexists.
    + by rewrite matched_lots_sum, Ht.
    + rewrite matched_profit_sum, Ht by done. by field.
Qed.

Lemma partial_match_drops_remainder_witness :
  ∃ lots,
    (process_closed_trade (sample_opens, []) (close_of 30000 6000)).2 = [] ++ lots
    ∧ lots = (λ p, matched_result (close_of 30000 6000)
                     (get_adjusted_date (exec_time (close_of 30000 6000))) p.2
                     (remaining_qty p.2))
               <$> potential_matches sample_opens (close_of 30000 6000)
    ∧ Forall (λ l, is_Some (res_holding l)) lots
    ∧ (Qsum ((λ l, res_lots l * lot_size (symbol (close_of 30000 6000)))%Q <$> lots)
       == Qsum ((remaining_qty ∘ snd)
                  <$> potential_matches sample_opens (close_of 30000 6000)))%Q
    ∧ (Qsum (res_profit <$> lots)
       + realized_pl (close_of 30000 6000)
         * (exec_qty (close_of 30000 6000)
            - Qsum ((remaining_qty ∘ snd)
                      <$> potential_matches sample_opens (close_of 30000 6000)))
         / exec_qty (close_of 30000 6000)
       == realized_pl (close_of 30000 6000))%Q.
Proof.
  apply (partial_match_drops_remainder sample_opens [] (close_of 30000 6000)).
  - by vm_compute.
  - by vm_compute.
Defined.

(** ** Oldest first *)

Lemma potential_matches_first l1 o1 l2 c :
  Forall (λ o, eligible c o = false) l1 → eligible c o1 = true →
  ∃ rest, potential_matches (l1 ++ o1 :: l2) c = (length l1, o1) :: rest.
Proof.
  intros Hl1 Ho1. unfold potential_matches.
  rewrite imap_app, filter_app. simpl.
  rewrite filter_cons_True by (simpl; by apply Is_true_true).
  rewrite Nat.add_0_r.
  fold (potential_matches l1 c). rewrite potential_matches_none by done.
  by eexists.
Qed.

Lemma by_time_before nts (j i : nat) o o1 :
  StronglySorted by_time nts → nts !! j = Some o → nts !! i = Some o1 →
  (j < i)%nat → exec_time (nt_row o) ≤ exec_time (nt_row o1).
Proof.
  intros Hs Hj Hi Hlt.
  rewrite <- (take_drop_middle nts i o1 Hi) in Hs.
  apply (StronglySorted_app_1_elem_of _ _ _ o o1) in Hs; [done| |left].
  apply list_elem_of_lookup. exists j. by rewrite lookup_take_lt.
Qed.

(** C2, as amended. In a frame [new_trades] sorted by timestamp (as it is
    throughout a run, see [run_matcher_sorted] below), let [o1] (at index
    [i1]) and [o2] (at index [i2]) be eligible for the closing execution
    [c], [o1] opened before [o2], and let [o1] be the oldest eligible row:
    every other eligible row was opened strictly later. If the quantity of
    [c] is not negative and does not exceed the remaining quantity of [o1],
    then processing [c] takes the whole quantity of [c] from [o1] and leaves
    [o2], and every other row, as it is. *)
Theorem fifo_oldest_first nts res c (i1 i2 : nat) o1 o2 :
  StronglySorted by_time nts →
  nts !! i1 = Some o1 → nts !! i2 = Some o2 →
  eligible c o1 = true → eligible c o2 = true →
  exec_time (nt_row o1) < exec_time (nt_row o2) →
  (∀ (j : nat) o, nts !! j = Some o → eligible c o = true → j ≠ i1 →
     exec_time (nt_row o1) < exec_time (nt_row o)) →
  (0 <= exec_qty c)%Q → (exec_qty c <= remaining_qty o1)%Q →
  (∃ o1', (process_closed_trade (nts, res) c).1 !! i1 = Some o1'
          ∧ nt_row o1' = nt_row o1
          ∧ (remaining_qty o1' == remaining_qty o1 - exec_qty c)%Q)
  ∧ (process_closed_trade (nts, res) c).1 !! i2 = Some o2
  ∧ (∀ j : nat, j ≠ i1 →
       (process_closed_trade (nts, res) c).1 !! j = nts !! j).
Proof.
  intros Hs H1 H2 He1 He2 Ht Hold Hq0 Hq1.
  assert (i1 ≠ i2) as Hne by (intros ->; rewrite H1 in H2; inversion H2; subst; lia).
  assert (Forall (λ o, eligible c o = false) (take i1 nts)) as Hfirst.
  { apply Forall_lookup. intros j o Hj.
    assert (j < i1)%nat as Hlt.
    { apply lookup_lt_Some in Hj. rewrite length_take in Hj. lia. }
    rewrite lookup_take_lt in Hj by done.
    destruct (eligible c o) eqn:E; [|done].
    pose proof (by_time_before _ _ _ _ _ Hs Hj H1 Hlt).
    specialize (Hold j o Hj E). lia. }
  destruct (potential_matches_first _ o1 (drop (S i1) nts) c Hfirst He1)
    as [rest Hrest].
  rewrite take_drop_middle in Hrest by done.
  rewrite length_take_le in Hrest by (apply lookup_lt_Some in H1; lia).
  unfold process_closed_trade, run_match_loop. simpl. rewrite Hrest. simpl.
  destruct (Qle_bool (exec_qty c) 0) eqn:E; simpl.
  - apply Qle_bool_iff in E. split; [|by split].
    exists o1. split; [done|]. split; [done|]. lra.
  - rewrite (py_min_l _ _ Hq1).
    assert (Qle_bool (exec_qty c - exec_qty c) 0 = true) as Hz
      by (apply Qle_bool_iff; lra).
    assert (∀ st, closed_qty st = (exec_qty c - exec_qty c)%Q →
              match_loop c (get_adjusted_date (exec_time c)) rest st = st) as Hstop.
    { intros st Hst. destruct rest as [|[??] ?]; simpl; [done|].
      by rewrite Hst, Hz. }
    rewrite Hstop by done. simpl. split; [|split].
    + exists (decrease (exec_qty c) o1).
      by rewrite list_lookup_alter_eq, H1.
    + rewrite list_lookup_alter_ne; done.
    + intros j Hj. rewrite list_lookup_alter_ne; done.
Qed.

Lemma fifo_oldest_first_witness :
  (∃ o1', (process_closed_trade (sample_opens, []) (close_of 5000 700)).1 !! 0%nat
            = Some o1'
          ∧ nt_row o1' = nt_row (open_at 0 6000)
          ∧ (remaining_qty o1'
             == remaining_qty (open_at 0 6000) - exec_qty (close_of 5000 700))%Q)
  ∧ (process_closed_trade (sample_opens, []) (close_of 5000 700)).1 !! 1%nat
      = Some (open_at 1 10000)
  ∧ (∀ j : nat, j ≠ 0%nat →
       (process_closed_trade (sample_opens, []) (close_of 5000 700)).1 !! j
       = sample_opens !! j).
Proof.
  apply (fifo_oldest_first sample_opens [] (close_of 5000 700)
           0 1 (open_at 0 6000) (open_at 1 10000)).
  - repeat constructor; by vm_compute.
  - reflexivity.
  - reflexivity.
  - reflexivity.
  - reflexivity.
  - reflexivity.
  - intros [|[|[|j]]] o Hj He Hne; try done;
      inversion Hj; subst; reflexivity.
  - by vm_compute.
  - by vm_compute.
Defined.

(** C2, as stated, fails. With three eligible rows and a closing quantity
    of 5000, the pair formed by the second and the third row meets the
    conditions of the claim, but the 5000 units are taken from the first
    row (the holding time of the only result row is five hours): the second
    row keeps its 10000 units. And with a negative closing quantity
    the loop stops at once: nothing is taken from the oldest row. *)
Lemma fifo_pair_counterexample :
  (sample_opens !! 1%nat = Some (open_at 1 10000)
   ∧ sample_opens !! 2%nat = Some (open_at 2 10000)
   ∧ eligible (close_of 5000 700) (open_at 1 10000) = true
   ∧ eligible (close_of 5000 700) (open_at 2 10000) = true
   ∧ exec_time (nt_row (open_at 1 10000)) < exec_time (nt_row (open_at 2 10000))
   ∧ (exec_qty (close_of 5000 700) <= remaining_qty (open_at 1 10000))%Q
   ∧ (final_state sample_df).1 !! 1%nat = Some (open_at 1 10000)
   ∧ ¬ (remaining_qty (open_at 1 10000)
        == remaining_qty (open_at 1 10000) - exec_qty (close_of 5000 700))%Q
   ∧ res_holding <$> process_trades sample_df = [Some (5 * ns_per_hour)])
  ∧ (sample_opens !! 0%nat = Some (open_at 0 6000)
     ∧ sample_opens !! 1%nat = Some (open_at 1 10000)
     ∧ eligible (close_of (-5000) 700) (open_at 0 6000) = true
     ∧ eligible (close_of (-5000) 700) (open_at 1 10000) = true
     ∧ exec_time (nt_row (open_at 0 6000)) < exec_time (nt_row (open_at 1 10000))
     ∧ (exec_qty (close_of (-5000) 700) <= remaining_qty (open_at 0 6000))%Q
     ∧ (process_closed_trade (sample_opens, []) (close_of (-5000) 700)).1 !! 0%nat
         = Some (open_at 0 6000)
     ∧ ¬ (remaining_qty (open_at 0 6000)
          == remaining_qty (open_at 0 6000) - exec_qty (close_of (-5000) 700))%Q).
Proof.
  split.
  - repeat split; try reflexivity; by vm_compute.
  - repeat split; try reflexivity; by vm_compute.
Qed.

(** ** Sorting *)

Lemma insert_sorted_perm {A} (le : A → A → bool) (x : A) (l : list A) :
  insert_sorted le x l ≡ₚ x :: l.
Proof.
  induction l as [|y l IH]; simpl; [done|].
  destruct (le x y); [done|]. rewrite IH. apply Permutation_swap.
Qed.

Lemma stable_sort_perm {A} (le : A → A → bool) (l : list A) :
  stable_sort le l ≡ₚ l.
Proof.
  induction l as [|x l IH]; simpl; [done|].
  unfold stable_sort in *. simpl. by rewrite insert_sorted_perm, IH.
Qed.

Lemma insert_sorted_sorted {A} (key : A → Z) (x : A) (l : list A) :
  StronglySorted (λ a b, key a ≤ key b) l →
  StronglySorted (λ a b, key a ≤ key b) (insert_sorted (λ a b, key a <=? key b) x l).
Proof.
  induction 1 as [|y l Hl IH Hy]; simpl.
  - repeat constructor.
  - destruct (key x <=? key y) eqn:E.
    + apply Z.leb_le in E. constructor; [by constructor|].
      constructor; [done|]. eapply Forall_impl; [done|]. simpl. lia.
    + apply Z.leb_gt in E. constructor; [done|].
      rewrite insert_sorted_perm. constructor; [lia|done].
Qed.

Lemma sort_values_sorted {A} (key : A → Z) (l : list A) :
  StronglySorted (λ a b, key a ≤ key b) (sort_values key l).
Proof.
  unfold sort_values, stable_sort.
  induction l as [|x l IH]; simpl; [constructor|].
  by apply insert_sorted_sorted.
Qed.

Lemma init_new_trades_sorted df : StronglySorted by_time (init_new_trades df).
Proof. apply (sort_values_sorted (λ nt, exec_time (nt_row nt))). Qed.

Lemma init_new_trades_full df :
  Forall (λ o, remaining_qty o = exec_qty (nt_row o)) (init_new_trades df).
Proof.
  unfold init_new_trades, sort_values. rewrite stable_sort_perm.
  by apply Forall_fmap, Forall_forall.
Qed.

(** ** The counters of the opening rows *)

Lemma fst_zip_take {A B} (l : list A) (k : list B) :
  (zip l k).*1 = take (length k) l.
Proof.
  revert k. induction l as [|x l IH]; intros [|y k]; simpl; [done..|].
  by rewrite IH.
Qed.

Lemma matched_slices_NoDup nts c (ms : list Q) :
  NoDup (zip (potential_matches nts c) ms).*1.*1.
Proof.
  rewrite fst_zip_take. eapply sublist_NoDup; [apply potential_matches_NoDup|].
  apply fmap_sublist, sublist_take.
Qed.

Lemma matched_slice_bounds nts c (k i : nat) o (m : Q) :
  potential_matches nts c !! k = Some (i, o) →
  allocation (exec_qty c) ((remaining_qty ∘ snd) <$> potential_matches nts c) !! k
    = Some m →
  (0 < m)%Q ∧ (m <= remaining_qty o)%Q.
Proof.
  intros Hk Hm.
  pose proof (allocation_bounds (exec_qty c) _ (potential_matches_positive nts c)) as Hb.
  eapply (Forall2_lookup_lr _ _ _ k m (remaining_qty o)) in Hb; [done..|].
  rewrite lookup_take_lt by (by apply lookup_lt_Some in Hm).
  by rewrite list_lookup_fmap, Hk.
Qed.

Lemma process_closed_trade_new_trades nts res c :
  (process_closed_trade (nts, res) c).1 =
  apply_matches nts
    (zip (potential_matches nts c)
       (allocation (exec_qty c) ((remaining_qty ∘ snd) <$> potential_matches nts c))).
Proof.
  unfold process_closed_trade. simpl. rewrite run_match_loop_allocation. simpl.
  by destruct (allocation _ _).
Qed.

(** What one closing execution does to a row of [new_trades]: nothing, or
    one decrease by a matched quantity that is positive and at most the
    remaining quantity of the row. *)
Lemma process_closed_trade_lookup nts res c (j : nat) o :
  nts !! j = Some o →
  (process_closed_trade (nts, res) c).1 !! j = Some o
  ∨ ∃ m : Q, (0 < m)%Q ∧ (m <= remaining_qty o)%Q
      ∧ (process_closed_trade (nts, res) c).1 !! j = Some (decrease m o).
Proof.
  intros Hj. rewrite process_closed_trade_new_trades.
  set (ms := allocation _ _).
  destruct (decide (j ∈ (zip (potential_matches nts c) ms).*1.*1)) as [Hin|Hout].
  - right. apply list_elem_of_fmap in Hin as ([j' o'] & -> & Hin).
    apply list_elem_of_fmap in Hin as ([p m] & Hp & Hin). simpl in Hp; subst p.
    pose proof Hin as Hin'.
    apply elem_of_lookup_zip_with in Hin' as (k & p & m' & Heq & Hk & Hm).
    inversion Heq; subst p m'. simpl in *.
    assert (o' = o) as ->.
    { apply list_elem_of_lookup_2, potential_matches_elem in Hk as [Hk _].
      congruence. }
    destruct (matched_slice_bounds _ _ _ _ _ _ Hk Hm) as [Hm0 Hm1].
    exists m. split; [done|]. split; [done|].
    apply apply_matches_hit; [apply matched_slices_NoDup|done..].
  - left. by rewrite apply_matches_other.
Qed.

Lemma process_closed_trade_counter nts res c (j : nat) o :
  nts !! j = Some o →
  ∃ o', (process_closed_trade (nts, res) c).1 !! j = Some o'
    ∧ nt_row o' = nt_row o
    ∧ (remaining_qty o' <= remaining_qty o)%Q
    ∧ ((0 <= remaining_qty o)%Q → (0 <= remaining_qty o')%Q).
Proof.
  intros Hj.
  destruct (process_closed_trade_lookup nts res c j o Hj)
    as [H|(m & Hm0 & Hm1 & H)]; rewrite H.
  - exists o. repeat split; [lra|done].
  - exists (decrease m o). simpl. repeat split; [lra|]. intros _. lra.
Qed.

Lemma run_matcher_counter closed nts res (j : nat) o :
  nts !! j = Some o →
  ∃ o', (run_matcher (nts, res) closed).1 !! j = Some o'
    ∧ nt_row o' = nt_row o
    ∧ (remaining_qty o' <= remaining_qty o)%Q
    ∧ ((0 <= remaining_qty o)%Q → (0 <= remaining_qty o')%Q).
Proof.
  revert nts res o. induction closed as [|c closed IH]; intros nts res o Hj.
  - exists o. split; [done|]. split; [done|]. split; [lra|done].
  - unfold run_matcher. simpl.
    destruct (process_closed_trade_counter nts res c j o Hj)
      as (o1 & H1 & Hrow1 & Hle1 & Hpos1).
    destruct (process_closed_trade (nts, res) c) as [nts1 res1]. simpl in H1.
    destruct (IH nts1 res1 o1 H1) as (o' & H' & Hrow & Hle & Hpos).
    exists o'. split; [done|]. split; [congruence|]. split; [lra|].
    intros H0. by apply Hpos, Hpos1.
Qed.

(** The counter of a row after the updates of some slices is its value
    before, less the quantities of the slices taken from that row. *)
Lemma apply_matches_taken nts ms (j : nat) o :
  nts !! j = Some o →
  ∃ o', apply_matches nts ms !! j = Some o'
    ∧ (remaining_qty o' == remaining_qty o - taken_from j ms)%Q.
Proof.
  revert nts o. induction ms as [|[[i oi] m] ms IH]; intros nts o Hj.
  - exists o. split; [done|]. unfold taken_from. simpl. lra.
  - unfold apply_matches. simpl.
    fold (apply_matches (alter (decrease m) i nts) ms).
    unfold taken_from. rewrite filter_cons. simpl.
    destruct (decide (i = j)) as [->|Hne].
    + destruct (IH (alter (decrease m) j nts) (decrease m o)) as (o' & H1 & H2).
      { by rewrite list_lookup_alter_eq, Hj. }
      exists o'. split; [done|]. rewrite H2, fmap_cons, Qsum_cons.
      unfold taken_from. simpl. lra.
    + destruct (IH (alter (decrease m) i nts) o) as (o' & H1 & H2).
      { by rewrite list_lookup_alter_ne. }
      by exists o'.
Qed.

Lemma process_closed_trade_res nts res res' c :
  (process_closed_trade (nts, res) c).1 = (process_closed_trade (nts, res') c).1.
Proof. by rewrite !process_closed_trade_new_trades. Qed.

Lemma taken_from_app (i : nat) sl1 sl2 :
  (taken_from i (sl1 ++ sl2) == taken_from i sl1 + taken_from i sl2)%Q.
Proof. unfold taken_from. by rewrite filter_app, fmap_app, Qsum_app. Qed.

Lemma run_matcher_taken closed nts res (j : nat) o :
  nts !! j = Some o →
  ∃ o', (run_matcher (nts, res) closed).1 !! j = Some o'
    ∧ (remaining_qty o' == remaining_qty o - taken_from j (run_slices nts closed))%Q.
Proof.
  revert nts res o. induction closed as [|c closed IH]; intros nts res o Hj.
  - exists o. split; [done|]. unfold taken_from. simpl. lra.
  - unfold run_matcher. simpl.
    destruct (apply_matches_taken nts (slices nts c) j o Hj) as (o1 & H1 & Hq1).
    unfold slices in H1.
    rewrite <- (process_closed_trade_new_trades nts res c) in H1.
    rewrite (process_closed_trade_res nts [] res c).
    destruct (process_closed_trade (nts, res) c) as [nts1 res1]. simpl in *.
    destruct (IH nts1 res1 o1 H1) as (o' & H' & Hq').
    exists o'. split; [done|]. rewrite Hq', Hq1, taken_from_app. lra.
Qed.

(** The result rows with a holding time are the slices, one row per slice
    and in the same order: the lot count of the row, times the lot size, is
    the quantity of the slice. *)
Lemma step_matched_quantities nts res c :
  ∃ lots,
    (process_closed_trade (nts, res) c).2 = res ++ lots
    ∧ Forall2 Qeq (matched_quantities lots) (snd <$> slices nts c).
Proof.
  unfold process_closed_trade. simpl. rewrite run_match_loop_allocation. simpl.
  fold (slices nts c). unfold slices.
  set (matches := potential_matches nts c).
  set (ms := allocation _ _).
  set (ad := get_adjusted_date (exec_time c)).
  assert (¬ (lot_size (symbol c) == 0)%Q) as Hd.
  { unfold lot_size. by destruct (is_fx _). }
  assert (∀ (l : list (nat * NewTrade)) (k : list Q), Forall2 Qeq
            (matched_quantities
               (zip_with (λ p m, matched_result c ad p.2 m) l k))
            (snd <$> zip l k)) as Hz.
  { induction l as [|p l IH]; intros [|m k]; try by constructor.
    unfold matched_quantities. cbn [zip_with].
    rewrite filter_cons_True by (by eexists). rewrite !fmap_cons.
    constructor; [simpl; by field|apply IH]. }
  destruct ms as [|m0 ms'] eqn:Ems; cbn [snd].
  - exists [unmatched_result c ad]. split.
    { by rewrite zip_with_nil_right, app_nil_r. }
    rewrite zip_with_nil_right. unfold matched_quantities.
    rewrite filter_cons_False by (simpl; by intros [??]). constructor.
  - rewrite <- Ems. eexists. split; [done|]. apply Hz.
Qed.

Lemma matched_quantities_app res1 res2 :
  matched_quantities (res1 ++ res2)
  = matched_quantities res1 ++ matched_quantities res2.
Proof. unfold matched_quantities. by rewrite filter_app, fmap_app. Qed.

Lemma run_matched_quantities closed nts res :
  ∃ lots,
    (run_matcher (nts, res) closed).2 = res ++ lots
    ∧ Forall2 Qeq (matched_quantities lots) (snd <$> run_slices nts closed).
Proof.
  revert nts res. induction closed as [|c closed IH]; intros nts res.
  - exists []. split; [by rewrite app_nil_r|constructor].
  - unfold run_matcher. simpl.
    destruct (step_matched_quantities nts res c) as (lots1 & H1 & Hq1).
    rewrite (process_closed_trade_res nts [] res c).
    destruct (process_closed_trade (nts, res) c) as [nts1 res1]. simpl in *.
    destruct (IH nts1 res1) as (lots2 & H2 & Hq2).
    exists (lots1 ++ lots2). split.
    + unfold run_matcher in H2. rewrite H2, H1. by rewrite app_assoc.
    + rewrite matched_quantities_app, fmap_app. by apply Forall2_app.
Qed.

(** C3, as amended. Take an opening row whose original quantity is not
    negative, and any sequence of closing executions processed from the
    initial state. The row keeps its place; its 残り数量 counter is its
    original quantity less the total quantity of the slices taken from it;
    that total is between zero and its original quantity; and the counter
    is never negative. The slices are the result rows that carry a holding
    time, one row per slice and in the same order: the lot count of the row,
    times its lot size, is the quantity of the slice. *)
Theorem no_over_consumption df closed (i : nat) o :
  init_new_trades df !! i = Some o →
  (0 <= exec_qty (nt_row o))%Q →
  ∃ o', (run_matcher (init_new_trades df, []) closed).1 !! i = Some o'
    ∧ nt_row o' = nt_row o
    ∧ (remaining_qty o'
       == exec_qty (nt_row o) - taken_from i (run_slices (init_new_trades df) closed))%Q
    ∧ (0 <= taken_from i (run_slices (init_new_trades df) closed))%Q
    ∧ (taken_from i (run_slices (init_new_trades df) closed) <= exec_qty (nt_row o))%Q
    ∧ (0 <= remaining_qty o')%Q
    ∧ Forall2 Qeq
        (matched_quantities (run_matcher (init_new_trades df, []) closed).2)
        (snd <$> run_slices (init_new_trades df) closed).
Proof.
  intros Hi Hq.
  pose proof (init_new_trades_full df) as Hfull.
  rewrite Forall_lookup in Hfull. specialize (Hfull _ _ Hi).
  destruct (run_matcher_counter closed _ [] i o Hi) as (o' & H' & Hrow & Hle & Hpos).
  destruct (run_matcher_taken closed _ [] i o Hi) as (o'' & H'' & Htaken).
  assert (o'' = o') as -> by congruence.
  destruct (run_matched_quantities closed (init_new_trades df) [])
    as (lots & Hlots & Hslices).
  exists o'. rewrite Hfull in Hle, Hpos, Htaken. specialize (Hpos Hq).
  split; [done|]. split; [done|]. split; [done|].
  split; [lra|]. split; [lra|]. split; [lra|]. by rewrite Hlots.
Qed.

Lemma no_over_consumption_witness :
  ∃ o', (run_matcher (init_new_trades sample_df, []) [close_of 5000 700]).1 !! 0%nat
          = Some o'
    ∧ nt_row o' = nt_row (open_at 0 6000)
    ∧ (remaining_qty o'
       == exec_qty (nt_row (open_at 0 6000))
          - taken_from 0 (run_slices (init_new_trades sample_df) [close_of 5000 700]))%Q
    ∧ (0 <= taken_from 0 (run_slices (init_new_trades sample_df) [close_of 5000 700]))%Q
    ∧ (taken_from 0 (run_slices (init_new_trades sample_df) [close_of 5000 700])
       <= exec_qty (nt_row (open_at 0 6000)))%Q
    ∧ (0 <= remaining_qty o')%Q
    ∧ Forall2 Qeq
        (matched_quantities
           (run_matcher (init_new_trades sample_df, []) [close_of 5000 700]).2)
        (snd <$> run_slices (init_new_trades sample_df) [close_of 5000 700]).
Proof.
  apply (no_over_consumption sample_df [close_of 5000 700] 0 (open_at 0 6000)).
  - reflexivity.
  - by vm_compute.
Defined.

(** C3, as stated, fails for an opening row of negative quantity: the row
    is never eligible, so its counter stays at its negative original value,
    and no slice is cut at all, so that the quantity taken from the row,
    zero, exceeds its original quantity. *)
Lemma no_over_consumption_counterexample :
  init_new_trades negative_df = [negative_open]
  ∧ (final_state negative_df).1 !! 0%nat = Some negative_open
  ∧ (remaining_qty negative_open < 0)%Q
  ∧ matched_quantities (process_trades negative_df) = []
  ∧ run_slices (init_new_trades negative_df)
      (sort_values exec_time (filter is_closed negative_df)) = []
  ∧ ¬ (taken_from 0 (run_slices (init_new_trades negative_df)
                       (sort_values exec_time (filter is_closed negative_df)))
       <= exec_qty (nt_row negative_open))%Q.
Proof. repeat split; try reflexivity; by vm_compute. Qed.

(** [new_trades] stays sorted by timestamp through the run: the updates
    change the counters only. *)
Lemma apply_matches_rows nts ms :
  nt_row <$> apply_matches nts ms = nt_row <$> nts.
Proof.
  revert nts. induction ms as [|[[i o] m] ms IH]; intros nts; [done|].
  unfold apply_matches. simpl.
  fold (apply_matches (alter (decrease m) i nts) ms). rewrite IH.
  rewrite (list_fmap_alter nt_row (decrease m) id) by (by apply Forall_forall).
  by apply list_alter_id.
Qed.

Lemma by_time_rows (l l' : list NewTrade) :
  nt_row <$> l = nt_row <$> l' →
  StronglySorted by_time l → StronglySorted by_time l'.
Proof.
  revert l'. induction l as [|x l IH]; intros [|y l'] Heq Hs; try done.
  rewrite !fmap_cons in Heq. inversion Heq as [[Hxy Htl]].
  apply StronglySorted_inv in Hs as [Hs Hall].
  constructor; [by apply IH|].
  unfold by_time in *.
  apply (Forall_fmap nt_row (λ r, exec_time (nt_row y) ≤ exec_time r)).
  rewrite <- Htl, <- Hxy.
  by apply (Forall_fmap nt_row (λ r, exec_time (nt_row x) ≤ exec_time r)).
Qed.

Lemma run_matcher_sorted df res closed :
  StronglySorted by_time (run_matcher (init_new_trades df, res) closed).1.
Proof.
  pose proof (init_new_trades_sorted df) as Hs.
  generalize dependent (init_new_trades df). intros nts Hs. revert nts res Hs.
  induction closed as [|c closed IH]; intros nts res Hs; [done|].
  unfold run_matcher. simpl.
  pose proof (process_closed_trade_new_trades nts res c) as Hn.
  destruct (process_closed_trade (nts, res) c) as [nts1 res1]. simpl in Hn.
  apply IH. apply (by_time_rows nts); [|done].
  by rewrite Hn, apply_matches_rows.
Qed.

(** ** Lot normalization *)

Lemma matched_slice_lookup nts res c (k i : nat) o (m : Q) :
  potential_matches nts c !! k = Some (i, o) →
  allocation (exec_qty c) ((remaining_qty ∘ snd) <$> potential_matches nts c) !! k
    = Some m →
  (process_closed_trade (nts, res) c).1 !! i = Some (decrease m o).
Proof.
  intros Hk Hm. rewrite process_closed_trade_new_trades.
  apply apply_matches_hit.
  - apply matched_slices_NoDup.
  - apply elem_of_lookup_zip_with. by exists k, (i, o), m.
  - by apply list_elem_of_lookup_2, potential_matches_elem in Hk as [Hk _].
Qed.

(** C6. The rows appended to [results] for a closing execution [c] have
    their lot count equal to the raw quantity of the slice divided by the
    lot size of [c]: 10000 when the instrument name of [c] contains JPY, USD
    or EUR (type FX), and 1 otherwise (type CFD). For a matched slice the raw
    quantity is what the slice takes from the opening row it is matched
    with (the decrease of that row's 残り数量); for the unmatched row it is
    the quantity of [c]. A closing quantity of 30000 gives 3 lots for an FX
    instrument and 30000 lots for a CFD instrument. *)
Theorem lot_normalization nts res c :
  (∃ lots,
     (process_closed_trade (nts, res) c).2 = res ++ lots
     ∧ Forall (λ l, res_type l = if is_fx (symbol c) then "FX" else "CFD") lots
     ∧ if is_matched (run_match_loop nts res c)
       then Forall2 (λ l p, ∃ o',
                (process_closed_trade (nts, res) c).1 !! p.1 = Some o'
                ∧ (res_lots l ==
                     (remaining_qty p.2 - remaining_qty o')
                     / (if is_fx (symbol c) then 10000 else 1))%Q)
              lots (take (length lots) (potential_matches nts c))
       else ∃ l, lots = [l]
              ∧ res_lots l
                = (exec_qty c / (if is_fx (symbol c) then 10000 else 1))%Q)
  ∧ is_fx (symbol c)
    = (contains "JPY" (symbol c) || contains "USD" (symbol c)
       || contains "EUR" (symbol c))
  ∧ Forall (λ l, (res_lots l == 3)%Q ∧ res_type l = "FX") (process_trades fx_df)
  ∧ length (process_trades fx_df) = 1%nat
  ∧ Forall (λ l, (res_lots l == 30000)%Q ∧ res_type l = "CFD") (process_trades cfd_df)
  ∧ length (process_trades cfd_df) = 1%nat.
Proof.
  split; [|split; [done|]].
  2:{ split; [|split; [done|split; [|done]]];
        (repeat constructor; by vm_compute). }
  unfold process_closed_trade at 1. simpl.
  rewrite run_match_loop_allocation. simpl.
  set (matches := potential_matches nts c).
  set (ms := allocation _ _).
  set (ad := get_adjusted_date (exec_time c)).
  assert (¬ (lot_size (symbol c) == 0)%Q) as Hd.
  { unfold lot_size. by destruct (is_fx _). }
  destruct ms as [|m0 ms'] eqn:Ems; simpl.
  - exists [unmatched_result c ad]. split.
    { by rewrite zip_with_nil_right, app_nil_r. }
    split; [by repeat constructor|]. by eexists.
  - rewrite <- Ems. eexists. split; [done|]. split.
    { apply Forall_forall. intros l Hl.
      by apply elem_of_lookup_zip_with in Hl as (k & p & m & -> & _ & _). }
    apply Forall2_same_length_lookup_2.
    { rewrite length_take, length_zip_with. lia. }
    intros k l [i o] Hl Hp.
    apply lookup_zip_with_Some in Hl as (p & m & -> & Hk & Hm).
    apply lookup_take_Some in Hp as [Hp _].
    assert (p = (i, o)) as -> by (fold matches in Hp; congruence).
    exists (decrease m o). split.
    + by apply (matched_slice_lookup nts res c k).
    + simpl. fold (lot_size (symbol c)). by field.
Qed.

(** ** Settlement date *)

Lemma date_of_previous_day (dt : Timestamp) :
  date_of (dt - Timedelta_days 1) = date_of dt - 1.
Proof.
  unfold date_of, Timedelta_days.
  replace (dt - 1 * ns_per_day) with (dt + (-1) * ns_per_day) by lia.
  by rewrite Z.div_add.
Qed.

Lemma adjusted_date_of (dt : Timestamp) :
  date_of (get_adjusted_date dt)
  = if hour dt <? 7 then date_of dt - 1 else date_of dt.
Proof.
  unfold get_adjusted_date. destruct (hour dt <? 7); [|done].
  apply date_of_previous_day.
Qed.

(** C7. Every row appended to [results] for a closing execution [c] has its
    決済日 and 決済年月 formatted from the adjusted date of the timestamp of
    [c], whatever opening rows it is matched with: the calendar date of that
    timestamp, minus one day when its hour is less than 7. At least one row
    is appended. A closing execution at 06:30 on 2024-03-01 of a position
    opened two days before is dated 2024-02-29, in month 2024-02. *)
Theorem settlement_from_close nts res c :
  (∃ lots,
     (process_closed_trade (nts, res) c).2 = res ++ lots
     ∧ lots ≠ []
     ∧ Forall (λ l,
         res_date l = strftime_Ymd (get_adjusted_date (exec_time c))
         ∧ res_month l = strftime_Ym (get_adjusted_date (exec_time c))
         ∧ res_date l =
             format_Ymd (if hour (exec_time c) <? 7
                         then date_of (exec_time c) - 1
                         else date_of (exec_time c))
         ∧ res_month l =
             format_Ym (if hour (exec_time c) <? 7
                        then date_of (exec_time c) - 1
                        else date_of (exec_time c))) lots)
  ∧ (res_date <$> process_trades early_df = ["2024-02-29"]
     ∧ res_month <$> process_trades early_df = ["2024-02"]
     ∧ res_holding <$> process_trades early_df = [Some (2 * ns_per_day)]).
Proof.
  split; [|done].
  unfold process_closed_trade. simpl. rewrite run_match_loop_allocation. simpl.
  set (matches := potential_matches nts c).
  set (ms := allocation _ _).
  set (ad := get_adjusted_date (exec_time c)).
  assert (∀ l, res_date l = strftime_Ymd ad → res_month l = strftime_Ym ad →
            res_date l = strftime_Ymd ad ∧ res_month l = strftime_Ym ad
            ∧ res_date l =
                format_Ymd (if hour (exec_time c) <? 7
                            then date_of (exec_time c) - 1
                            else date_of (exec_time c))
            ∧ res_month l =
                format_Ym (if hour (exec_time c) <? 7
                           then date_of (exec_time c) - 1
                           else date_of (exec_time c))) as Hfmt.
  { intros l -> ->. unfold strftime_Ymd, strftime_Ym, ad.
    by rewrite adjusted_date_of. }
  destruct ms as [|m0 ms'] eqn:Ems; simpl.
  - exists [unmatched_result c ad]. split.
    { by rewrite zip_with_nil_right, app_nil_r. }
    split; [done|]. repeat constructor; by apply Hfmt.
  - rewrite <- Ems. eexists. split; [done|]. split.
    { intros Hnil. apply (f_equal length) in Hnil.
      rewrite length_zip_with in Hnil.
      pose proof (allocation_length (exec_qty c)
                    ((remaining_qty ∘ snd) <$> matches)) as Hlen.
      fold ms in Hlen. rewrite length_fmap in Hlen.
      rewrite Ems in Hnil, Hlen. simpl in *. lia. }
    apply Forall_forall. intros l Hl.
    apply elem_of_lookup_zip_with in Hl as (k & p & m & -> & _ & _).
    by apply Hfmt.
Qed.

(** ** The aggregator: groups *)

Lemma filter_comm {A} (P Q : A → Prop) `{!∀ x, Decision (P x)}
    `{!∀ x, Decision (Q x)} (l : list A) :
  filter P (filter Q l) = filter Q (filter P l).
Proof.
  induction l as [|x l IH]; [done|].
  rewrite !filter_cons.
  destruct (decide (P x)), (decide (Q x)); rewrite ?filter_cons;
    repeat case_decide; try done; by rewrite IH.
Qed.

Lemma groupby_elem cols df k g :
  (k, g) ∈ groupby cols df →
  g = filter (λ r, group_key cols r = k) df ∧ k ∈ group_key cols <$> df.
Proof.
  unfold groupby. intros Hin.
  apply list_elem_of_fmap in Hin as (k' & Heq & Hk). inversion Heq; subst.
  split; [done|].
  rewrite stable_sort_perm in Hk.
  exact (proj1 (elem_of_remove_dups _ _) Hk).
Qed.

Lemma groupby_nonempty cols df k g : (k, g) ∈ groupby cols df → g ≠ [].
Proof.
  intros Hin. apply groupby_elem in Hin as [-> Hk].
  apply list_elem_of_fmap in Hk as (r & -> & Hr).
  intros Hnil.
  by apply (filter_nil_not_elem_of _ _ r Hnil).
Qed.

Lemma lookup_key_fmap {V} (F : list string → V) (ks : list (list string)) k :
  lookup_key k ((λ k', (k', F k')) <$> ks)
  = if decide (k ∈ ks) then Some (F k) else None.
Proof.
  induction ks as [|k' ks IH].
  - by destruct (decide (k ∈ [])) as [Hin|_]; [apply elem_of_nil in Hin|].
  - rewrite fmap_cons. cbn [lookup_key].
    destruct (decide (k' = k)) as [->|Hne].
    + by destruct (decide (k ∈ k :: ks)) as [_|Hout]; [|destruct Hout; left].
    + rewrite IH.
      destruct (decide (k ∈ ks)) as [Hin|Hout],
               (decide (k ∈ k' :: ks)) as [Hin'|Hout']; try done.
      * destruct Hout'. by right.
      * apply elem_of_cons in Hin' as [?|?]; congruence.
Qed.

(** The grouped sum of a filtered frame, read at the key of a group, is the
    sum over the filtered rows of the group (zero when there is none). *)
Lemma reindex_grouped_sum cols (P : Result → Prop) `{!∀ r, Decision (P r)} df k :
  reindex_fillna0 (grouped_sum cols (filter P df)) k
  = Qsum (res_profit <$> filter P (filter (λ r, group_key cols r = k) df)).
Proof.
  unfold reindex_fillna0, grouped_sum, groupby.
  rewrite <- list_fmap_compose. unfold compose. cbn [fst snd].
  rewrite (lookup_key_fmap
    (λ k', Qsum (res_profit <$> filter (λ r, group_key cols r = k') (filter P df)))).
  rewrite (filter_comm P).
  destruct (decide _) as [Hin|Hout]; simpl; [done|].
  rewrite filter_none; [done|].
  apply Forall_forall. intros r Hr Hk. apply Hout.
  rewrite stable_sort_perm. apply (proj2 (elem_of_remove_dups _ _)).
  apply list_elem_of_fmap. by exists r.
Qed.

(** The columns of a summary row in terms of its group. *)
Lemma analyze_summary_elem df cols r :
  r ∈ analyze_summary df cols →
  ∃ k g,
    g = filter (λ x, group_key cols x = k) df ∧ g ≠ []
    ∧ sum_key r = k
    ∧ n_trades r = length g
    ∧ n_wins r = length (filter is_win g)
    ∧ n_losses r = length (filter is_loss g)
    ∧ gross_profit r = Qsum (res_profit <$> filter is_win g)
    ∧ gross_loss r = Qsum (res_profit <$> filter is_loss g)
    ∧ win_rate r = win_rate_of (n_wins r) (n_trades r)
    ∧ PF r = profit_factor_of (gross_profit r) (gross_loss r)
    ∧ avg_win r = average_of (gross_profit r) (n_wins r)
    ∧ avg_loss r = average_of (gross_loss r) (n_losses r)
    ∧ RR r = reward_risk_of (avg_win r) (avg_loss r).
Proof.
  unfold analyze_summary. intros Hin.
  apply list_elem_of_fmap in Hin as ([k g] & -> & Hin).
  pose proof (groupby_nonempty _ _ _ _ Hin) as Hne.
  apply groupby_elem in Hin as [Hg _].
  exists k, g. unfold summary_row. simpl.
  rewrite !reindex_grouped_sum, <- Hg. by repeat split.
Qed.

(** ** The aggregator: ratios *)

Lemma is_win_pos r : is_win r → (0 < res_profit r)%Q.
Proof.
  unfold is_win. intros H. apply Is_true_true, negb_true_iff in H.
  by apply Qle_bool_false.
Qed.

Lemma is_win_not_loss r : is_win r → is_loss r → False.
Proof.
  intros Hw Hl. apply is_win_pos in Hw.
  unfold is_loss in Hl. apply Is_true_true, negb_true_iff, Qle_bool_false in Hl.
  lra.
Qed.

Lemma Qsum_wins_nonneg (g : list Result) :
  (0 <= Qsum (res_profit <$> filter is_win g))%Q.
Proof.
  induction g as [|r g IH]; simpl; [lra|].
  rewrite filter_cons. destruct (decide (is_win r)) as [Hw|_]; [|done].
  rewrite fmap_cons, Qsum_cons. apply is_win_pos in Hw. lra.
Qed.

Lemma of_nat_S_nonzero (n : nat) :
  Qeq_bool (inject_Z (Z.of_nat (S n))) 0 = false.
Proof.
  destruct (Qeq_bool _ _) eqn:E; [|done].
  apply Qeq_bool_iff in E. unfold Qeq in E. simpl in E. lia.
Qed.

Lemma of_nat_S_pos (n : nat) : (0 < inject_Z (Z.of_nat (S n)))%Q.
Proof. unfold Qlt. simpl. lia. Qed.

Lemma profit_factor_no_loss (total_win : Q) :
  (0 <= total_win)%Q → profit_factor_of total_win 0 = PInf.
Proof.
  intros H. unfold profit_factor_of, xabs, xdiv.
  change (Qeq_bool (Qabs 0) 0) with true. simpl.
  destruct (total_win ?= 0)%Q eqn:E; [done| |done].
  apply Qlt_alt in E. lra.
Qed.

Lemma reward_risk_no_loss (a : Q) :
  (0 <= a)%Q → reward_risk_of (Fin a) (Fin 0) = PInf.
Proof.
  intros H. unfold reward_risk_of, xabs, xdiv.
  change (Qeq_bool (Qabs 0) 0) with true. simpl.
  destruct (a ?= 0)%Q eqn:E; [done| |done].
  apply Qlt_alt in E. lra.
Qed.

Lemma average_of_wins (g : list Result) :
  ∃ a : Q,
    average_of (Qsum (res_profit <$> filter is_win g)) (length (filter is_win g))
    = Fin a ∧ (0 <= a)%Q.
Proof.
  pose proof (Qsum_wins_nonneg g) as Hs.
  destruct (filter is_win g) as [|r l] eqn:E.
  - exists 0%Q. split; [done|lra].
  - rewrite <- E in *. replace (length (filter is_win g)) with (S (length l))
      by (by rewrite E).
    eexists. split.
    + unfold average_of, of_nat, xdiv. by rewrite of_nat_S_nonzero.
    + apply Qle_shift_div_l; [apply of_nat_S_pos|]. lra.
Qed.

(** C8. In every row of the summary: with no losing trade, PF and RR are
    plus infinity and the average loss is 0; with no winning trade the
    average win is 0; and the win rate is the filled ratio
    [win_rate_of], which is 0, and not NaN, when there is no trade. The row
    computed for a group without trades has win rate 0. *)
Theorem ratio_edge_cases df cols :
  Forall (λ r,
      (n_losses r = 0%nat → PF r = PInf ∧ RR r = PInf)
      ∧ (n_trades r = 0%nat → win_rate r = Fin 0)
      ∧ (n_wins r = 0%nat → avg_win r = Fin 0)
      ∧ (n_losses r = 0%nat → avg_loss r = Fin 0)
      ∧ win_rate r = win_rate_of (n_wins r) (n_trades r))
    (analyze_summary df cols)
  ∧ win_rate_of 0 0 = Fin 0
  ∧ (∀ k, win_rate (summary_row cols df (k, [])) = Fin 0).
Proof.
  split; [|done].
  apply Forall_forall. intros r Hr.
  apply analyze_summary_elem in Hr
    as (k & g & Hg & Hne & Hk & Hn & Hw & Hl & Hgp & Hgl & Hwr & HPF & Haw & Hal & HRR).
  assert (n_losses r = 0%nat → gross_loss r = 0%Q ∧ avg_loss r = Fin 0) as Hloss.
  { intros H0. rewrite Hal, Hgl, H0. rewrite Hl in H0.
    apply nil_length_inv in H0. by rewrite H0. }
  split; [|split; [|split; [|split]]].
  - intros H0. destruct (Hloss H0) as [Hgl0 Hal0]. split.
    + rewrite HPF, Hgl0, Hgp. apply profit_factor_no_loss, Qsum_wins_nonneg.
    + rewrite HRR, Hal0, Haw, Hgp, Hw.
      destruct (average_of_wins g) as (a & -> & Ha).
      by apply reward_risk_no_loss.
  - intros H0. rewrite Hn in H0. apply nil_length_inv in H0. done.
  - intros H0. rewrite Haw, Hgp, H0. rewrite Hw in H0.
    apply nil_length_inv in H0. by rewrite H0.
  - intros H0. by apply Hloss.
  - done.
Qed.

(** C10. In every row of the summary the trade count is at least 1 and is
    the number of rows of the frame that carry the key of the row; the win
    count plus the loss count is at most the trade count; and the win rate
    is a finite number between 0 and 100. A frame that is not empty gives
    at least one row. *)
Theorem summary_row_bounds df cols :
  Forall (λ r,
      (1 ≤ n_trades r)%nat
      ∧ n_trades r = length (filter (λ x, group_key cols x = sum_key r) df)
      ∧ (n_wins r + n_losses r ≤ n_trades r)%nat
      ∧ ∃ q : Q, win_rate r = Fin q ∧ (0 <= q)%Q ∧ (q <= 100)%Q)
    (analyze_summary df cols)
  ∧ (df = [] ∨ analyze_summary df cols ≠ []).
Proof.
  split.
  - apply Forall_forall. intros r Hr.
    apply analyze_summary_elem in Hr
      as (k & g & Hg & Hne & Hk & Hn & Hw & Hl & _ & _ & Hwr & _).
    assert (1 ≤ n_trades r)%nat as H1.
    { rewrite Hn. destruct g; [done|simpl; lia]. }
    assert (n_wins r + n_losses r ≤ n_trades r)%nat as H2.
    { rewrite Hw, Hl, Hn. clear. induction g as [|x g IH]; simpl; [lia|].
      rewrite !filter_cons.
      destruct (decide (is_win x)) as [Hxw|_], (decide (is_loss x)) as [Hxl|_];
        simpl; try lia.
      destruct (is_win_not_loss x Hxw Hxl). }
    split; [done|]. split; [by rewrite Hn, Hg, Hk|]. split; [done|].
    rewrite Hwr. destruct (n_trades r) as [|n] eqn:En; [lia|].
    unfold win_rate_of, of_nat, xdiv. rewrite of_nat_S_nonzero. simpl.
    eexists. split; [done|].
    pose proof (of_nat_S_pos n) as Hpos.
    assert (0 <= inject_Z (Z.of_nat (n_wins r)))%Q as Ha
      by (unfold Qle; simpl; lia).
    assert (inject_Z (Z.of_nat (n_wins r)) <= inject_Z (Z.of_nat (S n)))%Q as Hb
      by (rewrite <- Zle_Qle; lia).
    set (a := inject_Z (Z.of_nat (n_wins r))) in *.
    set (b := inject_Z (Z.of_nat (S n))) in *.
    assert (0 <= a / b)%Q as Hq0 by (apply Qle_shift_div_l; [done|lra]).
    assert (a / b <= 1)%Q as Hq1 by (apply Qle_shift_div_r; [done|lra]).
    set (q := (a / b)%Q) in *. split; lra.
  - destruct df as [|x df]; [by left|right].
    unfold analyze_summary, groupby. intros Hnil.
    apply fmap_nil_inv, fmap_nil_inv in Hnil.
    assert (group_key cols x ∈ stable_sort key_leb
              (remove_dups (group_key cols <$> x :: df))) as Hin.
    { rewrite stable_sort_perm. apply (proj2 (elem_of_remove_dups _ _)). left. }
    rewrite Hnil in Hin. by apply elem_of_nil in Hin.
Qed.

(** ** The end-to-end scenario *)

(** One opening execution of USDJPY (buy, 10000 units at 110) and its closing
    execution two hours later (sell, 10000 units, opened at 110, realized
    profit 10000) give exactly one result row: a long position, profit
    10000, held two hours, one lot, of type FX; and one summary row. *)
Example end_to_end_scenario :
  ∃ l, process_trades scenario = [l]
    ∧ res_symbol l = "USDJPY"
    ∧ res_position l = "ロング"
    ∧ (res_profit l == 10000)%Q
    ∧ res_holding l = Some (2 * ns_per_hour)
    ∧ (res_lots l == 1)%Q
    ∧ res_type l = "FX"
    ∧ res_date l = "2023-05-10"
    ∧ (n_trades <$> analyze_summary (process_trades scenario) [col_type]) = [1%nat]
    ∧ (PF <$> analyze_summary (process_trades scenario) [col_type]) = [PInf].
Proof. eexists. split; [reflexivity|]. by vm_compute. Qed.

(** * Further properties of the code *)

(** ** The trading day *)

(** X1. The adjusted date is the calendar date of the instant seven hours
    before the timestamp: the trading day of a timestamp runs from 07:00 to
    07:00 of the next day. The adjustment keeps the time of day. *)
Theorem trading_day_boundary (dt : Timestamp) :
  date_of (get_adjusted_date dt) = date_of (dt - 7 * ns_per_hour)
  ∧ (get_adjusted_date dt) `mod` ns_per_day = dt `mod` ns_per_day
  ∧ hour (get_adjusted_date dt) = hour dt.
Proof.
  unfold get_adjusted_date, date_of, hour, Timedelta_days, ns_per_day, ns_per_hour.
  destruct (((dt `div` 3600000000000) `mod` 24) <? 7) eqn:E.
  - apply Z.ltb_lt in E.
    repeat split; Z.to_euclidean_division_equations; lia.
  - apply Z.ltb_ge in E.
    repeat split; Z.to_euclidean_division_equations; lia.
Qed.

(** ** The duration text *)

(** X2. [format_timedelta] prints a missing duration as N/A, and any other
    duration as days, hours and minutes with the hours in 0..23 and the
    minutes in 0..59; together they are the duration rounded down to whole
    minutes (also for a negative duration). *)
Theorem format_timedelta_minutes (td : Timedelta) :
  format_timedelta None = "N/A"
  ∧ ∃ days hours minutes : Z,
      format_timedelta (Some td)
      = pretty days +:+ "日" +:+ pretty hours +:+ "時間" +:+ pretty minutes +:+ "分"
      ∧ 0 ≤ hours < 24 ∧ 0 ≤ minutes < 60
      ∧ days * 1440 + hours * 60 + minutes = td `div` ns_per_minute.
Proof.
  split; [done|].
  exists (td_days td), (td_seconds td `div` 3600),
    ((td_seconds td `mod` 3600) `div` 60).
  split; [done|].
  unfold td_days, td_seconds, ns_per_day, ns_per_second, ns_per_minute.
  repeat split; Z.to_euclidean_division_equations; lia.
Qed.

(** ** The rows appended for one closing execution *)

Lemma allocation_le (q : Q) (rems : list Q) :
  Forall (λ r, (0 < r)%Q) rems → Forall (λ m, (m <= q)%Q) (allocation q rems).
Proof.
  intros Hpos. revert q. induction Hpos as [|r rems Hr Hpos IH]; intros q; simpl.
  - constructor.
  - destruct (Qle_bool q 0) eqn:E; [constructor|].
    apply Qle_bool_false in E.
    pose proof (py_min_le_l q r). pose proof (py_min_pos q r E Hr).
    constructor; [done|].
    eapply Forall_impl; [apply IH|]. simpl. intros m Hm. lra.
Qed.

Lemma potential_matches_length nts c :
  (length (potential_matches nts c) ≤ length nts)%nat.
Proof.
  unfold potential_matches. etrans; [apply length_filter|].
  by rewrite length_imap.
Qed.

Lemma step_results nts res c :
  ∃ lots,
    (process_closed_trade (nts, res) c).2 = res ++ lots
    ∧ lots ≠ []
    ∧ (length lots ≤ max 1 (length nts))%nat
    ∧ Forall (emitted_for c) lots.
Proof.
  unfold process_closed_trade. simpl. rewrite run_match_loop_allocation. simpl.
  pose proof (allocation_length (exec_qty c)
                ((remaining_qty ∘ snd) <$> potential_matches nts c)) as Hlen.
  pose proof (allocation_le (exec_qty c) _ (potential_matches_positive nts c)) as Hle.
  pose proof (matched_slice_bounds nts c) as Hb.
  pose proof (potential_matches_length nts c) as Hpl.
  rewrite length_fmap in Hlen.
  set (matches := potential_matches nts c) in *.
  set (ms := allocation _ _) in *.
  set (ad := get_adjusted_date (exec_time c)).
  destruct ms as [|m0 ms'] eqn:Ems; cbn [snd].
  - exists [unmatched_result c ad]. split.
    { by rewrite zip_with_nil_right, app_nil_r. }
    split; [done|]. split; [simpl; lia|].
    constructor; [by left|constructor].
  - rewrite <- Ems in *. eexists. split; [done|].
    assert (length (zip_with (λ p m, matched_result c ad p.2 m) matches ms)
            = length ms) as Hl.
    { rewrite length_zip_with. lia. }
    split; [|split].
    + intros Hnil. apply (f_equal length) in Hnil. rewrite Hl, Ems in Hnil. done.
    + rewrite Hl. lia.
    + apply Forall_forall. intros l Hl'.
      apply elem_of_lookup_zip_with in Hl' as (k & [i o] & m & -> & Hk & Hm).
      right. exists o, m.
      destruct (Hb k i o m Hk Hm) as [Hm0 _].
      pose proof Hk as Hk'.
      apply list_elem_of_lookup_2, potential_matches_elem in Hk' as [_ He].
      rewrite Forall_lookup in Hle. specialize (Hle _ _ Hm). done.
Qed.

Lemma process_closed_trade_length nts res c :
  length (process_closed_trade (nts, res) c).1 = length nts.
Proof. by rewrite process_closed_trade_new_trades, apply_matches_length. Qed.

(** The rows appended by a run, one list per closing execution. *)
Lemma run_results closed nts res :
  ∃ lotss : list (list Result),
    (run_matcher (nts, res) closed).2 = res ++ mjoin lotss
    ∧ Forall2 (λ c lots, lots ≠ [] ∧ (length lots ≤ max 1 (length nts))%nat
                         ∧ Forall (emitted_for c) lots) closed lotss.
Proof.
  revert nts res. induction closed as [|c closed IH]; intros nts res.
  - exists []. split; [by rewrite app_nil_r|constructor].
  - unfold run_matcher. simpl.
    destruct (step_results nts res c) as (lots & H1 & Hne & Hlen & Hall).
    pose proof (process_closed_trade_length nts res c) as Hl.
    destruct (process_closed_trade (nts, res) c) as [nts1 res1]. simpl in *.
    destruct (IH nts1 res1) as (lotss & H2 & Hall2).
    exists (lots :: lotss). split.
    + unfold run_matcher in H2. rewrite H2, H1. simpl. by rewrite app_assoc.
    + constructor; [done|]. by rewrite <- Hl.
Qed.

Lemma sort_values_length {A} (key : A → Z) (l : list A) :
  length (sort_values key l) = length l.
Proof. unfold sort_values. by rewrite stable_sort_perm. Qed.

Lemma init_new_trades_length df :
  length (init_new_trades df) = length (filter is_new df).
Proof. unfold init_new_trades. by rewrite sort_values_length, length_fmap. Qed.

Lemma process_trades_results df :
  ∃ lotss : list (list Result),
    process_trades df = mjoin lotss
    ∧ Forall2 (λ c lots, lots ≠ []
                 ∧ (length lots ≤ max 1 (length (filter is_new df)))%nat
                 ∧ Forall (emitted_for c) lots)
        (sort_values exec_time (filter is_closed df)) lotss.
Proof.
  unfold process_trades, final_state.
  destruct (filter is_closed df) as [|c0 cs] eqn:E.
  - exists []. split; [done|constructor].
  - destruct (run_results (sort_values exec_time (c0 :: cs))
                (init_new_trades df) []) as (lotss & H & Hall).
    exists lotss. split; [done|]. by rewrite <- init_new_trades_length.
Qed.

Lemma process_trades_emitted df :
  Forall (λ l, ∃ c, c ∈ df ∧ is_closed c = true ∧ emitted_for c l)
    (process_trades df).
Proof.
  destruct (process_trades_results df) as (lotss & -> & Hall).
  apply Forall_forall. intros l Hl.
  apply list_elem_of_join in Hl as (lots & Hl & Hlots).
  apply list_elem_of_lookup in Hlots as [k Hk].
  destruct (Forall2_lookup_r _ _ _ _ _ Hall Hk) as (c & Hc & _ & _ & Hem).
  apply list_elem_of_lookup_2 in Hc.
  unfold sort_values in Hc. rewrite stable_sort_perm in Hc.
  apply list_elem_of_filter in Hc as [Hcl Hc].
  exists c. split; [done|]. split; [by apply Is_true_true|].
  rewrite Forall_forall in Hem. by apply Hem.
Qed.


(** ** Where the result rows come from *)


(** X4. A row of [process_trades] that carries a holding time is a matched
    slice: its holding time is strictly positive (the opening execution is
    strictly earlier than the closing one) and so is its lot count. *)
Theorem matched_rows_positive df :
  Forall (λ l, match res_holding l with
               | Some h => 0 < h ∧ (0 < res_lots l)%Q
               | None => True
               end)
    (process_trades df).
Proof.
  eapply Forall_impl; [apply process_trades_emitted|].
  intros l (c & _ & _ & [->|(o & m & He & Hm0 & _ & ->)]); simpl; [done|].
  split.
  - unfold eligible in He. apply andb_prop in He as [_ He].
    apply Z.ltb_lt in He. lia.
  - apply Qlt_shift_div_l; [unfold lot_size; by destruct (is_fx _)|lra].
Qed.

(** X5. [process_trades] returns at least one row per closing execution of
    the history, and at most one row per pair of a closing and an opening
    execution (one row per closing execution when there is no opening
    execution); it returns no row exactly when the history has no closing
    execution. *)
Theorem rows_per_closing df :
  (length (filter is_closed df) ≤ length (process_trades df))%nat
  ∧ (length (process_trades df)
     ≤ length (filter is_closed df) * max 1 (length (filter is_new df)))%nat
  ∧ (process_trades df = [] ↔ filter is_closed df = []).
Proof.
  destruct (process_trades_results df) as (lotss & Heq & Hall).
  assert (∀ (cs : list Row) (ls : list (list Result)) (n : nat),
            Forall2 (λ c lots, lots ≠ [] ∧ (length lots ≤ n)%nat
                               ∧ Forall (emitted_for c) lots) cs ls →
            (length cs ≤ length (mjoin ls))%nat
            ∧ (length (mjoin ls) ≤ length cs * n)%nat) as Hcount.
  { intros cs ls n H. induction H as [|c lots cs' ls' (Hne & Hlen & _) _ IH];
      simpl; [lia|].
    rewrite length_app. destruct lots; [done|]. simpl in *. lia. }
  destruct (Hcount _ _ _ Hall) as [H1 H2].
  rewrite sort_values_length in H1, H2. rewrite Heq.
  split; [done|]. split; [done|]. split.
  - intros Hnil. rewrite Hnil in H1. apply nil_length_inv. simpl in H1. lia.
  - intros Hnil. rewrite <- Heq. unfold process_trades. by rewrite Hnil.
Qed.

(** ** What the matcher reads *)

Lemma filter_filter_impl {A} (P Q : A → Prop) `{!∀ x, Decision (P x)}
    `{!∀ x, Decision (Q x)} (l : list A) :
  (∀ x, Q x → P x) → filter Q (filter P l) = filter Q l.
Proof.
  intros HQP. induction l as [|x l IH]; [done|].
  rewrite !filter_cons.
  destruct (decide (P x)) as [HP|HP], (decide (Q x)) as [HQ|HQ];
    rewrite ?filter_cons; repeat case_decide; try done.
  - by rewrite IH.
  - destruct HP. by apply HQP.
Qed.

(** X6. [process_trades] reads only the opening and the closing executions:
    dropping every other row of the history (swap rows, for one) leaves its
    result unchanged. *)
Theorem only_trades_are_read df :
  process_trades (filter (λ r, is_new r || is_closed r) df) = process_trades df.
Proof.
  assert (filter is_new (filter (λ r, is_new r || is_closed r) df)
          = filter is_new df) as Hn.
  { apply (filter_filter_impl (λ r, is_new r || is_closed r) (λ r, is_new r)).
    intros r Hr. apply orb_True. by left. }
  assert (filter is_closed (filter (λ r, is_new r || is_closed r) df)
          = filter is_closed df) as Hc.
  { apply (filter_filter_impl (λ r, is_new r || is_closed r) (λ r, is_closed r)).
    intros r Hr. apply orb_True. by right. }
  unfold process_trades, final_state, init_new_trades. by rewrite Hn, Hc.
Qed.

Lemma sorted_strict {A} (key : A → Z) (l : list A) :
  StronglySorted (λ a b, key a ≤ key b) l → NoDup (key <$> l) →
  StronglySorted (λ a b, key a < key b) l.
Proof.
  induction 1 as [|x l Hs IH Hx]; intros Hnd; [constructor|].
  rewrite fmap_cons in Hnd. apply NoDup_cons in Hnd as [Hfresh Hnd].
  constructor; [by apply IH|].
  apply Forall_forall. intros y Hy.
  rewrite Forall_forall in Hx. specialize (Hx y Hy).
  assert (key x ≠ key y).
  { intros Heq. apply Hfresh. rewrite Heq. apply list_elem_of_fmap. by exists y. }
  lia.
Qed.

Lemma sort_values_perm {A} (key : A → Z) (l1 l2 : list A) :
  l1 ≡ₚ l2 → NoDup (key <$> l1) → sort_values key l1 = sort_values key l2.
Proof.
  intros Hp Hnd.
  assert (AntiSymm eq (λ a b : A, key a < key b)) as Hanti
    by (intros a b ??; lia).
  apply (StronglySorted_unique (λ a b : A, key a < key b)).
  - apply sorted_strict; [apply sort_values_sorted|].
    unfold sort_values. by rewrite stable_sort_perm.
  - apply sorted_strict; [apply sort_values_sorted|].
    unfold sort_values. by rewrite stable_sort_perm, <- Hp.
  - unfold sort_values. by rewrite !stable_sort_perm.
Qed.

(** X7. When the opening executions of a history have distinct timestamps,
    and so have its closing executions, the result of [process_trades] does
    not depend on the order of the rows of the history. *)
Theorem row_order_is_irrelevant df1 df2 :
  df1 ≡ₚ df2 →
  NoDup (exec_time <$> filter is_new df1) →
  NoDup (exec_time <$> filter is_closed df1) →
  process_trades df1 = process_trades df2.
Proof.
  intros Hp Hn Hc.
  assert (init_new_trades df1 = init_new_trades df2) as Hinit.
  { unfold init_new_trades. apply sort_values_perm.
    - by rewrite Hp.
    - by rewrite <- list_fmap_compose. }
  assert (sort_values exec_time (filter is_closed df1)
          = sort_values exec_time (filter is_closed df2)) as Hclosed.
  { apply sort_values_perm; [by rewrite Hp|done]. }
  assert (filter is_closed df1 ≡ₚ filter is_closed df2) as Hpc by (by rewrite Hp).
  unfold process_trades, final_state. rewrite Hinit, Hclosed.
  destruct (filter is_closed df1) as [|c1 l1], (filter is_closed df2) as [|c2 l2];
    first [ done
          | by apply Permutation_nil_cons in Hpc
          | symmetry in Hpc; by apply Permutation_nil_cons in Hpc ].
Qed.

Lemma row_order_is_irrelevant_witness :
  process_trades sample_df = process_trades (reverse sample_df).
Proof.
  apply (row_order_is_irrelevant sample_df (reverse sample_df)).
  - symmetry. apply reverse_Permutation.
  - by apply (bool_decide_unpack _).
  - by apply (bool_decide_unpack _).
Defined.

Lemma Qsum_perm (l1 l2 : list Q) : l1 ≡ₚ l2 → (Qsum l1 == Qsum l2)%Q.
Proof.
  induction 1 as [|x l1 l2 _ IH|x y l|l1 l2 l3 _ IH1 _ IH2].
  - reflexivity.
  - rewrite !Qsum_cons, IH. reflexivity.
  - rewrite !Qsum_cons. lra.
  - by rewrite IH1.
Qed.

Lemma run_no_opening res closed :
  run_matcher ([], res) closed
  = ([], res ++ ((λ c, unmatched_result c (get_adjusted_date (exec_time c)))
                   <$> closed)).
Proof.
  revert res. induction closed as [|c closed IH]; intros res.
  - by rewrite app_nil_r.
  - unfold run_matcher. simpl. rewrite unmatched_step by done.
    unfold run_matcher in IH. rewrite IH. by rewrite <- app_assoc.
Qed.

(** X8. For a history without opening executions (the positions were
    opened before the export window), [process_trades] returns exactly one
    row per closing execution, in the order of their timestamps, each with
    the full realized profit and quantity of its closing execution and no
    holding time; the profits of the rows add up to the realized profits of
    the closing executions. *)
Theorem no_opening_executions df :
  filter is_new df = [] →
  process_trades df
  = (λ c, unmatched_result c (get_adjusted_date (exec_time c)))
      <$> sort_values exec_time (filter is_closed df)
  ∧ (Qsum (res_profit <$> process_trades df)
     == Qsum (realized_pl <$> filter is_closed df))%Q.
Proof.
  intros Hn.
  assert (process_trades df
          = (λ c, unmatched_result c (get_adjusted_date (exec_time c)))
              <$> sort_values exec_time (filter is_closed df)) as Heq.
  { unfold process_trades, final_state, init_new_trades. rewrite Hn.
    destruct (filter is_closed df) as [|c cs] eqn:E; [done|].
    change (sort_values (λ nt, exec_time (nt_row nt)) _) with (@nil NewTrade).
    by rewrite run_no_opening. }
  split; [done|]. rewrite Heq, <- list_fmap_compose.
  apply Qsum_perm. unfold compose. simpl.
  apply fmap_Permutation. unfold sort_values. apply stable_sort_perm.
Qed.

Lemma no_opening_executions_witness :
  process_trades [cfd_close; close_of 5000 700]
  = (λ c, unmatched_result c (get_adjusted_date (exec_time c)))
      <$> sort_values exec_time (filter is_closed [cfd_close; close_of 5000 700])
  ∧ (Qsum (res_profit <$> process_trades [cfd_close; close_of 5000 700])
     == Qsum (realized_pl <$> filter is_closed [cfd_close; close_of 5000 700]))%Q.
Proof.
  apply (no_opening_executions [cfd_close; close_of 5000 700]).
  reflexivity.
Defined.

(** X9. Through any sequence of closing executions the frame of opening
    executions keeps its rows and their order: only the 残り数量 column
    changes. The frame holds the opening executions of the history, sorted
    by timestamp, and stays sorted. *)
Theorem new_trades_rows_kept df res closed :
  nt_row <$> (run_matcher (init_new_trades df, res) closed).1
  = nt_row <$> init_new_trades df
  ∧ nt_row <$> init_new_trades df ≡ₚ filter is_new df
  ∧ StronglySorted by_time (run_matcher (init_new_trades df, res) closed).1.
Proof.
  split; [|split].
  - generalize (init_new_trades df). intros nts. revert nts res.
    induction closed as [|c closed IH]; intros nts res; [done|].
    unfold run_matcher. simpl.
    pose proof (process_closed_trade_new_trades nts res c) as Hn.
    destruct (process_closed_trade (nts, res) c) as [nts1 res1]. simpl in Hn.
    unfold run_matcher in IH. rewrite IH, Hn. apply apply_matches_rows.
  - unfold init_new_trades, sort_values. rewrite stable_sort_perm.
    rewrite <- list_fmap_compose. by rewrite list_fmap_id.
  - apply run_matcher_sorted.
Qed.

(** ** Groups as a partition *)




Lemma analyze_summary_columns df cols :
  sum_key <$> analyze_summary df cols
  = stable_sort key_leb (remove_dups (group_key cols <$> df))
  ∧ n_trades <$> analyze_summary df cols
    = (λ k, length (filter (λ x, group_key cols x = k) df))
        <$> stable_sort key_leb (remove_dups (group_key cols <$> df))
  ∧ total_pl <$> analyze_summary df cols
    = (λ k, Qsum (res_profit <$> filter (λ x, group_key cols x = k) df))
        <$> stable_sort key_leb (remove_dups (group_key cols <$> df)).
Proof.
  unfold analyze_summary, groupby.
  rewrite <- !list_fmap_compose. unfold compose. simpl.
  by rewrite list_fmap_id.
Qed.


(** ** The columns of a summary row *)

Lemma analyze_summary_row df cols r :
  r ∈ analyze_summary df cols →
  ∃ g,
    g = filter (λ x, group_key cols x = sum_key r) df ∧ g ≠ []
    ∧ total_pl r = Qsum (res_profit <$> g)
    ∧ n_trades r = length g
    ∧ n_wins r = length (filter is_win g)
    ∧ n_losses r = length (filter is_loss g)
    ∧ gross_profit r = Qsum (res_profit <$> filter is_win g)
    ∧ gross_loss r = Qsum (res_profit <$> filter is_loss g)
    ∧ win_rate r = win_rate_of (n_wins r) (n_trades r)
    ∧ PF r = profit_factor_of (gross_profit r) (gross_loss r)
    ∧ avg_win r = average_of (gross_profit r) (n_wins r)
    ∧ avg_loss r = average_of (gross_loss r) (n_losses r)
    ∧ RR r = reward_risk_of (avg_win r) (avg_loss r).
Proof.
  unfold analyze_summary. intros Hin.
  apply list_elem_of_fmap in Hin as ([k g] & -> & Hin).
  pose proof (groupby_nonempty _ _ _ _ Hin) as Hne.
  apply groupby_elem in Hin as [Hg _].
  exists g. unfold summary_row. simpl.
  rewrite !reindex_grouped_sum, <- Hg. by repeat split.
Qed.

Lemma is_loss_neg r : is_loss r → (res_profit r < 0)%Q.
Proof.
  unfold is_loss. intros H. apply Is_true_true, negb_true_iff in H.
  by apply Qle_bool_false.
Qed.




Lemma Qsum_losses_nonpos (g : list Result) :
  (Qsum (res_profit <$> filter is_loss g) <= 0)%Q.
Proof.
  induction g as [|x g IH]; [simpl; lra|].
  rewrite filter_cons. destruct (decide (is_loss x)) as [Hl|Hl]; [|done].
  rewrite fmap_cons, Qsum_cons. pose proof (is_loss_neg x Hl). lra.
Qed.

Lemma Qsum_losses_neg (g : list Result) :
  filter is_loss g ≠ [] → (Qsum (res_profit <$> filter is_loss g) < 0)%Q.
Proof.
  induction g as [|x g IH]; [done|].
  rewrite filter_cons. destruct (decide (is_loss x)) as [Hl|Hl]; [|done].
  intros _. rewrite fmap_cons, Qsum_cons.
  pose proof (is_loss_neg x Hl). pose proof (Qsum_losses_nonpos g). lra.
Qed.


Lemma average_of_losses (g : list Result) :
  filter is_loss g ≠ [] →
  ∃ b : Q,
    average_of (Qsum (res_profit <$> filter is_loss g))
      (length (filter is_loss g)) = Fin b
    ∧ (b < 0)%Q.
Proof.
  intros Hne. pose proof (Qsum_losses_neg g Hne) as Hs.
  destruct (filter is_loss g) as [|x l] eqn:E; [done|].
  rewrite <- E in *. replace (length (filter is_loss g)) with (S (length l))
    by (by rewrite E).
  eexists. split.
  - unfold average_of, of_nat, xdiv. by rewrite of_nat_S_nonzero.
  - pose proof (of_nat_S_pos (length l)) as Hpos.
    apply Qlt_shift_div_r; [done|]. lra.
Qed.

Lemma Qabs_neg_nonzero (b : Q) : (b < 0)%Q → Qeq_bool (Qabs b) 0 = false.
Proof.
  intros Hb. destruct (Qeq_bool (Qabs b) 0) eqn:E; [|done].
  apply Qeq_bool_iff in E. rewrite Qabs_neg in E by lra. lra.
Qed.

(** X12. In every row of the summary PF and RR are plus infinity exactly
    when the group has no losing trade; with a losing trade both are finite
    and not negative, and PF is 総利益 divided by the absolute value of
    総損失. Neither is ever NaN or minus infinity. *)
Theorem ratios_finite_with_losses df cols :
  Forall (λ r,
      (PF r = PInf ↔ n_losses r = 0%nat)
      ∧ (RR r = PInf ↔ n_losses r = 0%nat)
      ∧ (n_losses r ≠ 0%nat →
           ∃ p q : Q, PF r = Fin p ∧ RR r = Fin q
             ∧ (0 <= p)%Q ∧ (0 <= q)%Q
             ∧ (p == gross_profit r / - gross_loss r)%Q)
      ∧ PF r ≠ NaN ∧ PF r ≠ NInf ∧ RR r ≠ NaN ∧ RR r ≠ NInf)
    (analyze_summary df cols).
Proof.
  apply Forall_forall. intros r Hr.
  apply analyze_summary_row in Hr
    as (g & _ & _ & _ & _ & Hw & Hl & Hgp & Hgl & _ & HPF & Haw & Hal & HRR).
  pose proof (Qsum_wins_nonneg g) as Hgp0.
  destruct (average_of_wins g) as (a & Ha & Ha0).
  rewrite <- Hgp, <- Hw, <- Haw in Ha.
  destruct (decide (filter is_loss g = [])) as [E|Hne].
  - assert (n_losses r = 0%nat) as H0 by (by rewrite Hl, E).
    assert (gross_loss r = 0%Q) as Hgl0 by (by rewrite Hgl, E).
    assert (PF r = PInf) as HP.
    { rewrite HPF, Hgl0, Hgp. by apply profit_factor_no_loss. }
    assert (RR r = PInf) as HR.
    { rewrite HRR, Hal, Hgl0, H0, Ha. by apply reward_risk_no_loss. }
    rewrite HP, HR. by repeat split.
  - assert (n_losses r ≠ 0%nat) as H0.
    { rewrite Hl. intros H. by apply nil_length_inv in H. }
    pose proof (Qsum_losses_neg g Hne) as Hneg.
    destruct (average_of_losses g Hne) as (b & Hb & Hb0).
    rewrite <- Hgl, <- Hl, <- Hal in Hb.
    rewrite <- Hgl in Hneg. rewrite <- Hgp in Hgp0.
    assert (PF r = Fin (gross_profit r / Qabs (gross_loss r))) as HP.
    { rewrite HPF. unfold profit_factor_of, xabs, xdiv.
      by rewrite Qabs_neg_nonzero. }
    assert (RR r = Fin (a / Qabs b)) as HR.
    { rewrite HRR, Ha, Hb. unfold reward_risk_of, xabs, xdiv.
      by rewrite Qabs_neg_nonzero. }
    rewrite HP, HR.
    split; [by split|]. split; [by split|]. split; [|done].
    intros _. eexists _, _. split; [done|]. split; [done|].
    rewrite !Qabs_neg by lra.
    split; [|split; [|reflexivity]].
    + apply Qle_shift_div_l; lra.
    + apply Qle_shift_div_l; lra.
Qed.

(** ** The colours of the cells *)



(** ** The FX and the CFD sections *)

Lemma filter_ext_elem {A} (P Q : A → Prop) `{!∀ x, Decision (P x)}
    `{!∀ x, Decision (Q x)} (l : list A) :
  Forall (λ x, P x ↔ Q x) l → filter P l = filter Q l.
Proof.
  induction 1 as [|x l Hx Hl IH]; [done|].
  rewrite !filter_cons, IH.
  destruct (decide (P x)), (decide (Q x)); try done; by destruct Hx; tauto.
Qed.

Lemma process_trades_types df :
  Forall (λ l, res_type l = trade_type (res_symbol l)) (process_trades df).
Proof.
  eapply Forall_impl; [apply process_trades_emitted|].
  by intros l (c & _ & _ & [->|(o & m & _ & _ & _ & ->)]).
Qed.

(** X14. Every row of [process_trades] is of type FX or CFD, and it is of
    type FX exactly when its instrument name contains JPY, USD or EUR. The
    FX frame and the CFD frame of the application are therefore a partition
    of the analyzed rows: together they hold every row once. *)
Theorem fx_cfd_partition df :
  fx_frame (process_trades df) ++ cfd_frame (process_trades df)
    ≡ₚ process_trades df
  ∧ fx_frame (process_trades df)
    = filter (λ l, is_fx (res_symbol l)) (process_trades df)
  ∧ cfd_frame (process_trades df)
    = filter (λ l, ¬ is_fx (res_symbol l)) (process_trades df).
Proof.
  pose proof (process_trades_types df) as Ht.
  assert (fx_frame (process_trades df)
          = filter (λ l, is_fx (res_symbol l)) (process_trades df)) as Hfx.
  { apply filter_ext_elem. eapply Forall_impl; [done|]. simpl.
    intros l ->. unfold trade_type. by destruct (is_fx (res_symbol l)). }
  assert (cfd_frame (process_trades df)
          = filter (λ l, ¬ is_fx (res_symbol l)) (process_trades df)) as Hcfd.
  { apply filter_ext_elem. eapply Forall_impl; [done|]. simpl.
    intros l ->. unfold trade_type. destruct (is_fx (res_symbol l)); simpl.
    - split; [done|]. intros H. by destruct H.
    - split; [|done]. intros _ H. done. }
  split; [|done]. rewrite Hfx, Hcfd.
  apply (filter_app_complement (λ l, is_fx (res_symbol l))).
Qed.

(** ** Series, merges and running sums *)






Lemma merge_outer_keys left right :
  (merge_outer_fillna0 left right).*1
  = stable_sort key_leb (remove_dups (left.*1 ++ right.*1)).
Proof.
  unfold merge_outer_fillna0. rewrite <- list_fmap_compose.
  unfold compose. simpl. by rewrite list_fmap_id.
Qed.


Lemma cumsum_from_length (acc : Q) (l : list Q) :
  length (cumsum_from acc l) = length l.
Proof.
  revert acc. induction l as [|x l IH]; intros acc; simpl; [done|].
  by rewrite IH.
Qed.




Lemma zip3_columns {A} (ks : list A) (xs ys : list Q) :
  length xs = length ks → length ys = length ks →
  (zip ks (zip xs ys)).*1 = ks
  ∧ (λ kv, kv.2.1) <$> zip ks (zip xs ys) = xs
  ∧ (λ kv, kv.2.2) <$> zip ks (zip xs ys) = ys.
Proof.
  revert xs ys. induction ks as [|k ks IH]; intros [|x xs] [|y ys] Hx Hy;
    try done.
  simpl in Hx, Hy. destruct (IH xs ys) as (H1 & H2 & H3); [lia..|].
  cbn [zip_with]. rewrite !fmap_cons. cbn [fst snd].
  by rewrite H1, H2, H3.
Qed.



(** ** The FX tables and charts *)







(** ** The date columns *)

Lemma string_length_app (s t : string) :
  String.length (s +:+ t) = (String.length s + String.length t)%nat.
Proof. induction s as [|c s IH]; simpl; [done|]. by rewrite IH. Qed.

Lemma string_app_cons (c : Ascii.ascii) (s t : string) :
  String c s +:+ t = String c (s +:+ t).
Proof. done. Qed.

Lemma string_app_assoc (s t u : string) : (s +:+ t) +:+ u = s +:+ (t +:+ u).
Proof.
  induction s as [|c s IH]; [done|]. by rewrite !string_app_cons, IH.
Qed.

Lemma substring_app_prefix (s t : string) :
  substring 0 (String.length s) (s +:+ t) = s.
Proof.
  induction s as [|c s IH]; simpl; [by destruct t|]. by rewrite IH.
Qed.

Lemma pad_digits_length (width : nat) (n : Z) :
  String.length (pad_digits width n) = width.
Proof.
  revert n. induction width as [|w IH]; intros n; simpl; [done|].
  rewrite string_length_app, IH. simpl. lia.
Qed.

Lemma format_Ymd_prefix (day : Z) :
  String.length (format_Ymd day) = 10%nat
  ∧ format_Ym day = substring 0 7 (format_Ymd day).
Proof.
  unfold format_Ymd, format_Ym.
  destruct (civil_from_days day) as [[y m] d]. split.
  - rewrite !string_length_app, !pad_digits_length. done.
  - set (ym := pad_digits 4 y +:+ "-" +:+ pad_digits 2 m).
    assert (pad_digits 4 y +:+ "-" +:+ pad_digits 2 m +:+ "-" +:+ pad_digits 2 d
            = ym +:+ ("-" +:+ pad_digits 2 d)) as ->.
    { unfold ym. by rewrite !string_app_assoc. }
    assert (String.length ym = 7%nat) as <-.
    { unfold ym. rewrite !string_length_app, !pad_digits_length. done. }
    by rewrite substring_app_prefix.
Qed.

(** X18. In every result row the column 決済日 has ten characters and the
    column 決済年月 is its first seven characters; the same holds for the
    two columns of every row of the trade history. Rows of one settlement
    date are therefore rows of one settlement month. *)
Theorem month_is_prefix_of_date df :
  Forall (λ l, String.length (res_date l) = 10%nat
             ∧ res_month l = substring 0 7 (res_date l)) (process_trades df)
  ∧ Forall (λ r, String.length (row_date r) = 10%nat
               ∧ row_month r = substring 0 7 (row_date r)) df.
Proof.
  split.
  - eapply Forall_impl; [apply process_trades_emitted|].
    intros l (c & _ & _ & [-> | (o & m & _ & _ & _ & ->)]);
      apply format_Ymd_prefix.
  - apply Forall_forall. intros r _. apply format_Ymd_prefix.
Qed.

(** ** The order of the rows of the tables *)

Lemma string_compare_refl (s : string) : String.compare s s = Eq.
Proof. by apply OrderedTypeEx.String_as_OT.cmp_eq. Qed.

Lemma string_compare_trans (s1 s2 s3 : string) :
  String.compare s1 s2 = Lt → String.compare s2 s3 = Lt →
  String.compare s1 s3 = Lt.
Proof.
  intros H1 H2. apply OrderedTypeEx.String_as_OT.cmp_lt.
  apply OrderedTypeEx.String_as_OT.cmp_lt in H1, H2.
  by eapply OrderedTypeEx.String_as_OT.lt_trans.
Qed.

Lemma key_leb_total (k1 k2 : list string) :
  key_leb k1 k2 = true ∨ key_leb k2 k1 = true.
Proof.
  revert k2. induction k1 as [|s1 k1 IH]; intros [|s2 k2]; simpl; auto.
  rewrite (String.compare_antisym s1 s2).
  destruct (String.compare s2 s1); simpl; auto.
Qed.

Lemma key_leb_trans (k1 k2 k3 : list string) :
  key_leb k1 k2 = true → key_leb k2 k3 = true → key_leb k1 k3 = true.
Proof.
  revert k2 k3.
  induction k1 as [|s1 k1 IH]; intros [|s2 k2] [|s3 k3]; simpl; try done.
  destruct (String.compare s1 s2) eqn:E12; [| |done];
    (destruct (String.compare s2 s3) eqn:E23; [| |done]); intros H1 H2.
  - apply String.compare_eq_iff in E12 as ->. rewrite E23. by eapply IH.
  - apply String.compare_eq_iff in E12 as ->. by rewrite E23.
  - apply String.compare_eq_iff in E23 as <-. by rewrite E12.
  - by rewrite (string_compare_trans _ _ _ E12 E23).
Qed.

Lemma key_leb_antisym (k1 k2 : list string) :
  key_leb k1 k2 = true → key_leb k2 k1 = true → k1 = k2.
Proof.
  revert k2. induction k1 as [|s1 k1 IH]; intros [|s2 k2]; simpl; try done.
  rewrite (String.compare_antisym s1 s2).
  destruct (String.compare s2 s1) eqn:E; simpl; try done.
  intros H1 H2. apply String.compare_eq_iff in E as ->. f_equal. by apply IH.
Qed.

Lemma insert_sorted_key_leb (k : list string) (ks : list (list string)) :
  StronglySorted (λ a b, key_leb a b = true) ks →
  StronglySorted (λ a b, key_leb a b = true) (insert_sorted key_leb k ks).
Proof.
  induction 1 as [|y l Hl IH Hy]; simpl.
  - repeat constructor.
  - destruct (key_leb k y) eqn:E.
    + constructor; [by constructor|].
      constructor; [done|]. eapply Forall_impl; [done|]. simpl.
      intros z Hz. by eapply key_leb_trans.
    + constructor; [done|].
      rewrite insert_sorted_perm. constructor; [|done].
      destruct (key_leb_total k y) as [H|H]; [congruence|done].
Qed.

Lemma stable_sort_ascending (ks : list (list string)) :
  NoDup ks → ascending_keys (stable_sort key_leb ks).
Proof.
  intros Hnd.
  assert (StronglySorted (λ a b, key_leb a b = true) (stable_sort key_leb ks))
    as Hs.
  { clear Hnd. unfold stable_sort.
    induction ks as [|k ks IH]; simpl; [constructor|].
    by apply insert_sorted_key_leb. }
  assert (NoDup (stable_sort key_leb ks)) as Hnd' by by rewrite stable_sort_perm.
  clear Hnd. unfold ascending_keys.
  induction Hs as [|k l Hs IH Hk]; [constructor|].
  apply NoDup_cons in Hnd' as [Hfresh Hnd'].
  constructor; [by apply IH|].
  apply Forall_forall. intros z Hz. split.
  - by apply (proj1 (Forall_forall _ _) Hk).
  - destruct (key_leb z k) eqn:E; [|done].
    destruct Hfresh.
    rewrite (key_leb_antisym k z); [done| |done].
    by apply (proj1 (Forall_forall _ _) Hk).
Qed.

(** X19. The rows of a summary come in strictly ascending order of their
    group key, whatever the frame and the grouping columns. So do the
    points of the FX daily chart and of the CFD daily chart, in the order
    of their 決済日, and the rows of the FX monthly table, in the order of
    their 決済年月. *)
Theorem tables_in_key_order frame cols df :
  ascending_keys (sum_key <$> analyze_summary frame cols)
  ∧ match chart_df_daily df with
    | Some chart => ascending_keys chart.*1
    | None => fx_frame (process_trades df) = []
    end
  ∧ match combined_monthly df with
    | Some monthly => ascending_keys monthly.*1
    | None => fx_frame (process_trades df) = []
    end
  ∧ match cfd_daily_chart df with
    | Some chart => ascending_keys chart.*1
    | None => cfd_frame (process_trades df) = []
    end.
Proof.
  assert (∀ f c, ascending_keys (sum_key <$> analyze_summary f c)) as Hsum.
  { intros f c. destruct (analyze_summary_columns f c) as (-> & _).
    apply stable_sort_ascending, NoDup_remove_dups. }
  assert (∀ l r, ascending_keys (merge_outer_fillna0 l r).*1) as Hmerge.
  { intros l r. rewrite merge_outer_keys.
    apply stable_sort_ascending, NoDup_remove_dups. }
  split; [done|]. split; [|split].
  - unfold chart_df_daily.
    destruct (fx_frame (process_trades df)) as [|x fx]; [done|].
    set (daily := merge_outer_fillna0 _ _).
    set (daily_total := (λ kv, kv.2.1 + kv.2.2)%Q <$> daily).
    destruct (zip3_columns daily.*1 daily_total (cumsum daily_total))
      as (-> & _).
    { unfold daily_total. by rewrite !length_fmap. }
    { unfold cumsum, daily_total.
      by rewrite cumsum_from_length, !length_fmap. }
    apply Hmerge.
  - unfold combined_monthly.
    destruct (fx_frame (process_trades df)) as [|x fx]; [done|].
    rewrite <- list_fmap_compose. unfold compose. cbn [fst]. apply Hmerge.
  - unfold cfd_daily_chart.
    destruct (cfd_frame (process_trades df)) as [|x cfd]; [done|].
    set (summary := analyze_summary (x :: cfd) [col_date]).
    destruct (zip3_columns (sum_key <$> summary) (total_pl <$> summary)
                (cumsum (total_pl <$> summary))) as (-> & _).
    { by rewrite !length_fmap. }
    { unfold cumsum. by rewrite cumsum_from_length, !length_fmap. }
    apply Hsum.
Qed.

(** ** The tables on a sample *)

(** The sample history has one FX trade of profit 700, one CFD trade, a swap
    of 120 booked at 06:00 on 2023-05-11 and a swap of -30 booked at 06:00
    on 2023-05-12: both swaps count for the day before. *)
Example app_tables_scenario :
  match chart_df_daily mixed_df with
  | Some [(d1, (t1, c1)); (d2, (t2, c2))] =>
      d1 = ["2023-05-10"] ∧ d2 = ["2023-05-11"]
      ∧ (t1 == 820)%Q ∧ (c1 == 820)%Q ∧ (t2 == -30)%Q ∧ (c2 == 790)%Q
  | _ => False
  end
  ∧ match combined_monthly mixed_df with
    | Some [(m, (trade, swap, total))] =>
        m = ["2023-05"] ∧ (trade == 700)%Q ∧ (swap == 90)%Q ∧ (total == 790)%Q
    | _ => False
    end
  ∧ format_timedelta (Some (5 * ns_per_hour + 59 * ns_per_second))
    = "0日5時間0分"
  ∧ format_timedelta (Some (-1)) = "-1日23時間59分".
Proof. vm_compute. repeat split. Qed.
